(** * tandapay-mobile maintenance scripts: [find_unwrapped_styles.py] and
    [fix_stylesheets.py]

    A shallow embedding of the two scripts and the proofs of their
    specified behaviour.

    Text is a list of characters.  A character is a code point below
    256 (the [ascii] type read as Latin-1), on which the classes [\s]
    and [\w] of Python's [re] and the white space of [str.strip] are
    given by their exact tables.  The file system is a finite map from
    paths to files, the console a list of printed lines, and a Python
    exception is an explicit [Raise] outcome. *)

From Stdlib Require Import Ascii String List ZArith Lia Bool.
From stdpp Require Import gmap strings list fin_maps.
Import ListNotations.

Local Open Scope string_scope.
Local Open Scope list_scope.

(** ** Python strings *)

Module Py.

Definition text := list ascii.

(** A string literal of the source as a [text]. *)
Definition lit (s : string) : text := list_ascii_of_string s.

Definition code (c : ascii) : N := N_of_ascii c.

Definition between (lo hi n : N) : bool := ((lo <=? n) && (n <=? hi))%N.

(** [str.isspace] on one character, which is also the class [\s]. *)
Definition is_space (c : ascii) : bool :=
  let n := code c in
  between 9 13 n || between 28 32 n || (n =? 133)%N || (n =? 160)%N.

(** The class [\w]: alphanumeric characters and the underscore. *)
Definition is_word (c : ascii) : bool :=
  let n := code c in
  between 48 57 n || between 65 90 n || between 97 122 n || (n =? 95)%N
  || (n =? 170)%N || between 178 179 n || (n =? 181)%N
  || between 185 186 n || between 188 190 n
  || between 192 214 n || between 216 246 n || between 248 255 n.

(** [s.startswith(x)] *)
Fixpoint starts_with (x s : text) : bool :=
  match x, s with
  | [], _ => true
  | _ :: _, [] => false
  | a :: x', b :: s' => Ascii.eqb a b && starts_with x' s'
  end.

(** [x in s] *)
Fixpoint contains (x s : text) : bool :=
  starts_with x s ||
  match s with
  | [] => false
  | _ :: s' => contains x s'
  end.

(** [c in s] for a single character [c]. *)
Definition has_char (c : ascii) (s : text) : bool :=
  existsb (Ascii.eqb c) s.

(** [s.count(c)] for a single character [c]. *)
Fixpoint count (c : ascii) (s : text) : Z :=
  match s with
  | [] => 0
  | a :: s' => (if Ascii.eqb c a then 1 else 0) + count c s'
  end%Z.

Fixpoint lstrip (s : text) : text :=
  match s with
  | a :: s' => if is_space a then lstrip s' else s
  | [] => []
  end.

Definition rstrip (s : text) : text := rev (lstrip (rev s)).

(** [s.strip()] *)
Definition strip (s : text) : text := rstrip (lstrip s).

(** [s.replace(old, new)] for a non-empty [old]: the occurrences are
    taken from the left and do not overlap.  [skip] counts the
    characters of an occurrence that are still to be passed over. *)
Fixpoint replace_from (old new s : text) (skip : nat) : text :=
  match s with
  | [] => []
  | a :: s' =>
      match skip with
      | S k => replace_from old new s' k
      | O =>
          if starts_with old s
          then new ++ replace_from old new s' (length old - 1)
          else a :: replace_from old new s' 0
      end
  end.

Definition replace (old new s : text) : text := replace_from old new s 0.

(** [s.split(sep)] for a single character [sep]; never the empty list. *)
Fixpoint split (sep : ascii) (s : text) : list text :=
  match s with
  | [] => [[]]
  | a :: s' =>
      if Ascii.eqb a sep then [] :: split sep s'
      else match split sep s' with
           | l :: ls => (a :: l) :: ls
           | [] => [[a]]
           end
  end.

(** [sep.join(parts)] for a single character [sep]. *)
Fixpoint join (sep : ascii) (parts : list text) : text :=
  match parts with
  | [] => []
  | [l] => l
  | l :: ls => l ++ sep :: join sep ls
  end.

Definition newline : ascii := ascii_of_nat 10.

End Py.

Import Py.

(** ** The fragment of Python's [re] the scripts use

    Every pattern of the two scripts is a sequence of single-character
    items, each with an optional quantifier, and at most one capturing
    group.  Matching is Python's: leftmost, greedy, with backtracking. *)

Module Re.

Inductive cls :=
| Chr (c : ascii)              (* a literal character *)
| Space                        (* \s *)
| Word                         (* \w *)
| NotChr (c : ascii)           (* [^c] *)
| AnyOf (cs : list ascii).     (* [cs] *)

Definition cls_match (k : cls) (a : ascii) : bool :=
  match k with
  | Chr c => Ascii.eqb c a
  | Space => is_space a
  | Word => is_word a
  | NotChr c => negb (Ascii.eqb c a)
  | AnyOf cs => existsb (Ascii.eqb a) cs
  end.

Inductive quant := Once | Maybe | Many | Many1.   (* x  x?  x*  x+ *)

Inductive node :=
| Atom (k : cls) (q : quant)
| GroupOpen
| GroupClose.

Definition regex := list node.

(** A successful match: where it stops and where group 1 lies, as
    offsets from the position the match was tried at. *)
Record span := Span { stop : nat; g_start : nat; g_stop : nat }.

Definition shift (r : span) : span :=
  Span (S (stop r)) (S (g_start r)) (S (g_stop r)).

Definition opened (r : span) : span := Span (stop r) 0 (g_stop r).
Definition closed (r : span) : span := Span (stop r) (g_start r) 0.

(** The backtracking matcher, anchored at the head of [s].  A greedy
    item takes as many characters as it can and gives them back one at a
    time while the rest of the pattern fails. *)
Fixpoint match_here (re : regex) (s : text) {struct re} : option span :=
  match re with
  | [] => Some (Span 0 0 0)
  | GroupOpen :: re' => opened <$> match_here re' s
  | GroupClose :: re' => closed <$> match_here re' s
  | Atom k q :: re' =>
      let rest := match_here re' in
      let fix many (s : text) : option span :=
        match s with
        | a :: s' =>
            if cls_match k a
            then match many s' with
                 | Some r => Some (shift r)
                 | None => rest s
                 end
            else rest s
        | [] => rest s
        end in
      match q with
      | Once =>
          match s with
          | a :: s' => if cls_match k a then shift <$> rest s' else None
          | [] => None
          end
      | Maybe =>
          match s with
          | a :: s' =>
              if cls_match k a
              then match rest s' with
                   | Some r => Some (shift r)
                   | None => rest s
                   end
              else rest s
          | [] => rest s
          end
      | Many => many s
      | Many1 =>
          match s with
          | a :: s' => if cls_match k a then shift <$> many s' else None
          | [] => None
          end
      end
  end.

(** The text of group 1 of a match tried at the head of [s]. *)
Definition group1 (r : span) (s : text) : text :=
  take (g_stop r - g_start r) (drop (g_start r) s).

(** [re.match(p, s) is not None] *)
Definition matches (re : regex) (s : text) : bool :=
  bool_decide (is_Some (match_here re s)).

(** [re.search(p, s) is not None] *)
Fixpoint search (re : regex) (s : text) : bool :=
  match match_here re s with
  | Some _ => true
  | None => match s with
            | [] => false
            | _ :: s' => search re s'
            end
  end.

(** [re.findall(p, s)] for a pattern with one group: the texts of
    group 1 of the successive matches, which do not overlap. *)
Fixpoint findall_from (re : regex) (s : text) (skip : nat) : list text :=
  match s with
  | [] =>
      match skip, match_here re [] with
      | O, Some r => [group1 r []]
      | _, _ => []
      end
  | _ :: s' =>
      match skip with
      | S k => findall_from re s' k
      | O =>
          match match_here re s with
          | Some r => group1 r s :: findall_from re s' (stop r - 1)
          | None => findall_from re s' 0
          end
      end
  end.

Definition findall (re : regex) (s : text) : list text := findall_from re s 0.

(** A replacement template: literal text and references to group 1. *)
Inductive piece := Plain (t : text) | Group1.

Definition expand (repl : list piece) (g : text) : text :=
  concat (map (fun p => match p with Plain t => t | Group1 => g end) repl).

(** [re.sub(p, repl, s)] *)
Fixpoint sub_from (re : regex) (repl : list piece) (s : text) (skip : nat)
  : text :=
  match s with
  | [] =>
      match skip, match_here re [] with
      | O, Some r => expand repl (group1 r [])
      | _, _ => []
      end
  | a :: s' =>
      match skip with
      | S k => sub_from re repl s' k
      | O =>
          match match_here re s with
          | Some r =>
              expand repl (group1 r s) ++
              match stop r with
              | O => a :: sub_from re repl s' 0
              | S k => sub_from re repl s' k
              end
          | None => a :: sub_from re repl s' 0
          end
      end
  end.

Definition sub (re : regex) (repl : list piece) (s : text) : text :=
  sub_from re repl s 0.

(** A run of literal characters. *)
Definition chars (s : string) : regex :=
  map (fun c => Atom (Chr c) Once) (lit s).

End Re.

Import Re.

(** ** Files, console and exceptions *)

Module Io.

(** A file on disk: text that decodes as UTF-8, or a file whose
    [open]/[read] raises (no permission, undecodable bytes, ...). *)
Inductive disk_file :=
| Text (content : text)
| Unreadable (err : string).

(** The lines the two scripts print, one constructor per [print] of the
    source; the glyph that heads each printed line is left out. *)
Inductive message :=
| AlreadyUses (file_path : string)
    (* "{file_path} already uses StyleSheet.create" *)
| Modified (file_path : string) (vars : list text)
    (* "Modified {file_path}: {', '.join(matches)}" *)
| NotFound (file_path : string)
    (* "File not found: {file_path}" *)
| FixBanner
    (* "Fixing StyleSheet.create wrapping for remaining files..." *)
| FixSummary (fixed_count : nat)
    (* "Summary: Fixed {fixed_count} files" *)
| NoStyleSheet (file_path : string) (vars : list text)
    (* "{file_path}: {', '.join(style_matches)} (no StyleSheet.create)" *)
| HasStyleSheet (file_path : string) (vars : list text)
    (* "{file_path}: {', '.join(style_matches)} (has StyleSheet.create)" *)
| ReadError (file_path : string) (err : string).
    (* "Error reading {file_path}: {e}" *)

Record world := World {
  disk : gmap string disk_file;
  console : list message
}.

Inductive outcome (A : Type) :=
| Ret (a : A)
| Raise (e : string).
Arguments Ret {A} a.
Arguments Raise {A} e.

(** Computations that read and change the world and may raise. *)
Definition io (A : Type) : Type := world -> outcome A * world.

Definition ret {A} (a : A) : io A := fun w => (Ret a, w).

Definition bind {A B} (m : io A) (f : A -> io B) : io B :=
  fun w =>
    match m w with
    | (Ret a, w') => f a w'
    | (Raise e, w') => (Raise e, w')
    end.

(** [try: m  except Exception as e: h e] *)
Definition try_except {A} (m : io A) (h : string -> io A) : io A :=
  fun w =>
    match m w with
    | (Ret a, w') => (Ret a, w')
    | (Raise e, w') => h e w'
    end.

(** [os.path.exists(path)] *)
Definition path_exists (path : string) : io bool :=
  fun w => (Ret (bool_decide (is_Some (disk w !! path))), w).

(** [with open(path, 'r', encoding='utf-8') as f: content = f.read()] *)
Definition read_text (path : string) : io text :=
  fun w =>
    match disk w !! path with
    | Some (Text content) => (Ret content, w)
    | Some (Unreadable err) => (Raise err, w)
    | None => (Raise "FileNotFoundError", w)
    end.

(** [with open(path, 'w', encoding='utf-8') as f: f.write(content)];
    the scripts only write files they have just read, and such a write
    is taken to succeed. *)
Definition write_text (path : string) (content : text) : io unit :=
  fun w => (Ret tt, World (<[path := Text content]> (disk w)) (console w)).

(** [print(...)] *)
Definition print (m : message) : io unit :=
  fun w => (Ret tt, World (disk w) (console w ++ [m])).

End Io.

Import Io.

Notation "x <- m ;; k" := (bind m (fun x => k))
  (at level 100, m at next level, right associativity).
Notation "m ;;; k" := (bind m (fun _ => k))
  (at level 100, right associativity).

(** ** fix_stylesheets.py *)

Module Fixer.

(** The pattern "from 'react-native';" *)
Definition rn_import_pattern : regex := chars "from 'react-native';".

(** The pattern "import\s*{\s*([^}]+)\s*}\s*from 'react-native';" *)
Definition rn_braces_pattern : regex :=
  chars "import" ++
  [Atom Space Many; Atom (Chr "{") Once; Atom Space Many;
   GroupOpen; Atom (NotChr "}") Many1; GroupClose;
   Atom Space Many; Atom (Chr "}") Once; Atom Space Many] ++
  chars "from 'react-native';".

(** The pattern "(import React[^;]*;)" *)
Definition react_import_pattern : regex :=
  [GroupOpen] ++ chars "import React" ++
  [Atom (NotChr ";") Many; Atom (Chr ";") Once; GroupClose].

(** The scanner's and the fixer's [style_pattern]: the word "const",
    white space [\s+], then group 1, a name [\w* [Ss]tyles? \w*], then
    [\s*], an equals sign, [\s*] and an opening brace. *)
Definition style_pattern : regex :=
  chars "const" ++
  [Atom Space Many1; GroupOpen; Atom Word Many; Atom (AnyOf ["S"; "s"]%char) Once] ++
  chars "tyle" ++
  [Atom (Chr "s") Maybe; Atom Word Many; GroupClose;
   Atom Space Many; Atom (Chr "=") Once; Atom Space Many; Atom (Chr "{") Once].

(** The replacement "const \1 = StyleSheet.create({" *)
Definition style_replacement : list piece :=
  [Plain (lit "const "); Group1; Plain (lit " = StyleSheet.create({")].

(** The pattern of a rewritten declaration: as [style_pattern] without
    the group, with "StyleSheet.create({" for the opening brace. *)
Definition wrapped_pattern : regex :=
  chars "const" ++
  [Atom Space Many1; Atom Word Many; Atom (AnyOf ["S"; "s"]%char) Once] ++
  chars "tyle" ++
  [Atom (Chr "s") Maybe; Atom Word Many;
   Atom Space Many; Atom (Chr "=") Once; Atom Space Many] ++
  chars "StyleSheet.create({".

(** The body of [fix_stylesheet_imports] after the file is read. *)
Definition add_stylesheet_import (content : text) : text :=
  if contains (lit "StyleSheet") content then content
  else if search rn_import_pattern content then
    let content :=
      sub rn_import_pattern [Plain (lit "} from 'react-native';")] content in
    sub rn_braces_pattern
      [Plain (lit "import { "); Group1;
       Plain (lit ", StyleSheet } from 'react-native';")]
      content
  else if search react_import_pattern content then
    sub react_import_pattern
      [Group1; Plain [newline];
       Plain (lit "import { StyleSheet } from 'react-native';")]
      content
  else content.

Definition fix_stylesheet_imports (file_path : string) : io text :=
  content <- read_text file_path ;;
  ret (add_stylesheet_import content).

(** The inner [for j in range(i, len(lines))] loop over the lines from
    the declaration on: the first line that brings the brace count back
    to zero and holds a closing brace ends the loop, and is rewritten
    when it is a bare terminator. *)
Fixpoint close_scan (ls : list text) (brace_count : Z) : list text :=
  match ls with
  | [] => []
  | l :: ls' =>
      let brace_count := (brace_count + (count "{" l - count "}" l))%Z in
      if (brace_count =? 0)%Z && has_char "}" l then
        if bool_decide (strip l = lit "};")
        then replace (lit "};") (lit "});") l :: ls'
        else l :: ls'
      else l :: close_scan ls' brace_count
  end.

(** One round of [for i, line in enumerate(lines)]. *)
Definition close_decl (lines : list text) (i : nat) : list text :=
  match lines !! i with
  | Some line =>
      if matches wrapped_pattern (strip line)
      then take i lines ++ close_scan (drop i lines) 0
      else lines
  | None => lines
  end.

Definition close_all (lines : list text) : list text :=
  fold_left close_decl (seq 0 (length lines)) lines.

(** The body of the [for pattern, replacement in style_patterns] loop,
    whose list has one entry: the new content and the [matches]. *)
Definition wrap_content (content : text) : text :=
  let content := sub style_pattern style_replacement content in
  join newline (close_all (split newline content)).

Definition wrap_styles_with_stylesheet (file_path : string) : io bool :=
  content <- read_text file_path ;;
  if contains (lit "StyleSheet.create") content then
    print (AlreadyUses file_path) ;;;
    ret false
  else
    content <- fix_stylesheet_imports file_path ;;
    let found := findall style_pattern content in
    match found with
    | [] => ret false
    | _ :: _ =>
        let content := wrap_content content in
        print (Modified file_path found) ;;;
        write_text file_path content ;;;
        ret true
    end.

Definition files_to_fix : list string :=
  [ "src/tandapay/wallet/wallet-setup/components/VerificationRow.js";
    "src/tandapay/wallet/wallet-setup/components/WordChip.js";
    "src/tandapay/wallet/WalletSendScreen.js";
    "src/tandapay/wallet/TransactionDetailsModal.js";
    "src/tandapay/wallet/WalletBalanceCard.js";
    "src/tandapay/tokens/TokenManagementScreen.js";
    "src/tandapay/components/ContractAddressConfiguration.js";
    "src/tandapay/components/NumberInput.js";
    "src/tandapay/components/NetworkSelector.js";
    "src/tandapay/components/TransactionEstimateAndSend.js";
    "src/tandapay/components/NetworkPerformanceSettings.js";
    "src/tandapay/components/WalletNetworkInfo.js";
    "src/tandapay/components/ScrollableTextBox.js";
    "src/tandapay/components/AddressArrayInput.js";
    "src/tandapay/components/TandaRibbon.js";
    "src/tandapay/components/TransactionParameterForm.js";
    "src/tandapay/components/TokenPicker.js";
    "src/tandapay/components/ModalContainer.js" ].

(** The [for file_path in files_to_fix] loop, with [fixed_count]. *)
Fixpoint fix_loop (files : list string) (fixed_count : nat) : io nat :=
  match files with
  | [] => ret fixed_count
  | file_path :: files' =>
      present <- path_exists file_path ;;
      if present : bool then
        fixed <- wrap_styles_with_stylesheet file_path ;;
        fix_loop files' (if fixed : bool then S fixed_count else fixed_count)
      else
        print (NotFound file_path) ;;;
        fix_loop files' fixed_count
  end.

(** [main], with the target list as a parameter. *)
Definition main_on (files : list string) : io unit :=
  print FixBanner ;;;
  fixed_count <- fix_loop files 0 ;;
  print (FixSummary fixed_count).

Definition main : io unit := main_on files_to_fix.

End Fixer.

Import Fixer.

(** ** find_unwrapped_styles.py *)

Module Scanner.

(** The pattern "StyleSheet\.create" *)
Definition stylesheet_pattern : regex := chars "StyleSheet.create".

(** An entry of [unwrapped_files]. *)
Record record := Record_ { file : string; style_vars : list text }.

(** The [try] block of the loop body with its handler. *)
Definition scan_file (file_path : string) (unwrapped_files : list record)
  : io (list record) :=
  try_except
    (content <- read_text file_path ;;
     let style_matches := findall style_pattern content in
     match style_matches with
     | [] => ret unwrapped_files
     | _ :: _ =>
         let has_stylesheet_create := search stylesheet_pattern content in
         if negb has_stylesheet_create then
           print (NoStyleSheet file_path style_matches) ;;;
           ret (unwrapped_files ++ [Record_ file_path style_matches])
         else
           print (HasStyleSheet file_path style_matches) ;;;
           ret unwrapped_files
     end)
    (fun e =>
       print (ReadError file_path e) ;;;
       ret unwrapped_files).

(** The [for file_path in js_files] loop. *)
Fixpoint scan_loop (js_files : list string) (unwrapped_files : list record)
  : io (list record) :=
  match js_files with
  | [] => ret unwrapped_files
  | file_path :: js_files' =>
      present <- path_exists file_path ;;
      if present : bool then
        unwrapped_files <- scan_file file_path unwrapped_files ;;
        scan_loop js_files' unwrapped_files
      else
        scan_loop js_files' unwrapped_files
  end.

(** [result.stdout.strip().split('\n') if result.stdout.strip() else []] *)
Definition js_files_of (stdout : text) : list string :=
  match strip stdout with
  | [] => []
  | _ :: _ => map string_of_list_ascii (split newline (strip stdout))
  end.

(** [find_unwrapped_styles], given what the [find] subprocess printed. *)
Definition find_unwrapped_styles (stdout : text) : io (list record) :=
  scan_loop (js_files_of stdout) [].

End Scanner.

Import Scanner.

(** ** Vocabulary of the specification *)

Module Spec.

(** The wrapping call the scripts look for. *)
Definition wrap_call : text := lit "StyleSheet.create".

(** The net number of braces the lines open. *)
Definition brace_count (ls : list text) : Z :=
  fold_right (fun l acc => (count "{" l - count "}" l) + acc)%Z 0%Z ls.

(** The running brace depth after line [j], counted from line [i]. *)
Definition depth (lines : list text) (i j : nat) : Z :=
  brace_count (take (S j - i) (drop i lines)).

(** Line [j] brings the depth counted from [i] back to zero and holds a
    closing brace. *)
Definition closes (lines : list text) (i j : nat) : Prop :=
  i <= j /\
  exists l, lines !! j = Some l /\ depth lines i j = 0%Z /\ has_char "}" l = true.

(** The first such line. *)
Definition closing_point (lines : list text) (i j : nat) : Prop :=
  closes lines i j /\ forall k, k < j -> ~ closes lines i k.

(** The closing point in the words of the specification: the first line
    at depth zero that is a bare terminator. *)
Definition bare_closing_point (lines : list text) (i j : nat) : Prop :=
  (i <= j /\
   exists l, lines !! j = Some l /\ depth lines i j = 0%Z /\ strip l = lit "};") /\
  forall k l, i <= k < j -> lines !! k = Some l ->
    ~ (depth lines i k = 0%Z /\ strip l = lit "};").

Definition rewrite_line (l : text) : text := replace (lit "};") (lit "});") l.

(** Equality of files is decidable. *)
#[global] Instance disk_file_eq_dec : EqDecision disk_file.
Proof. solve_decision. Defined.

(** The file the fixer leaves where it finds the file [f]. *)
Definition fixed (f : disk_file) : disk_file :=
  match f with
  | Text c =>
      if contains wrap_call c then f
      else match findall style_pattern (add_stylesheet_import c) with
           | [] => f
           | _ :: _ => Text (wrap_content (add_stylesheet_import c))
           end
  | Unreadable _ => f
  end.

(** The lines the fixer prints for a path in state [f]. *)
Definition visit_lines (file_path : string) (f : option disk_file)
  : list message :=
  match f with
  | None => [NotFound file_path]
  | Some (Text c) =>
      if contains wrap_call c then [AlreadyUses file_path]
      else match findall style_pattern (add_stylesheet_import c) with
           | [] => []
           | v :: vs => [Modified file_path (v :: vs)]
           end
  | Some (Unreadable _) => []
  end.

(** The paths whose file differs between two disks. *)
Definition modified_files (d d' : gmap string disk_file) : gset string :=
  filter (fun p => d !! p <> d' !! p) (dom d ∪ dom d').

(** No target that exists is unreadable. *)
Definition all_readable (d : gmap string disk_file) (files : list string)
  : Prop :=
  forall p e, In p files -> d !! p <> Some (Unreadable e).

(** The lines the scanner prints for a path in state [f]. *)
Definition scan_lines (file_path : string) (f : option disk_file)
  : list message :=
  match f with
  | None => []
  | Some (Unreadable e) => [ReadError file_path e]
  | Some (Text c) =>
      match findall style_pattern c with
      | [] => []
      | v :: vs =>
          if contains wrap_call c
          then [HasStyleSheet file_path (v :: vs)]
          else [NoStyleSheet file_path (v :: vs)]
      end
  end.

(** The records the scanner returns for a path in state [f]. *)
Definition scan_records (file_path : string) (f : option disk_file)
  : list record :=
  match f with
  | Some (Text c) =>
      match findall style_pattern c with
      | [] => []
      | v :: vs =>
          if contains wrap_call c then []
          else [Record_ file_path (v :: vs)]
      end
  | _ => []
  end.

(** The path a printed line is about. *)
Definition line_path (m : message) : option string :=
  match m with
  | AlreadyUses p | Modified p _ | NotFound p
  | NoStyleSheet p _ | HasStyleSheet p _ | ReadError p _ => Some p
  | FixBanner | FixSummary _ => None
  end.

End Spec.

Import Spec.

(** ** Sample files *)

Module Examples.

Definition scenario_source : text := lit
"import React from 'react';
const styles = {
  foo: 1,
};".

Definition scenario_fixed : text := lit
"import React from 'react';
import { StyleSheet } from 'react-native';
const styles = StyleSheet.create({
  foo: 1,
});".

Definition bare_source : text := lit
"const styles = {
  foo: 1,
};".

Definition bare_fixed : text := lit
"const styles = StyleSheet.create({
  foo: 1,
});".

(** A file with the usual import from the target module. *)
Definition rn_import_source : text := lit
"import { View } from 'react-native';".

Definition rn_import_result : text := lit
"import { View } } from 'react-native';".

(** The same import spread over several lines, in a whole file. *)
Definition rn_multiline_source : text := lit
"import React from 'react';
import {
  View,
  Text,
} from 'react-native';

const styles = {
  foo: 1,
};".

Definition rn_multiline_result : text := lit
"import React from 'react';
import {
  View,
  Text,
} } from 'react-native';

const styles = {
  foo: 1,
};".

(** A declaration whose closing line carries a comment, followed by
    another object literal. *)
Definition trailing_comment_source : text := lit
"const styles = {
  a: 1,
}; // end
const x = {
};".

Definition trailing_comment_lines : list text :=
  [ lit "const styles = StyleSheet.create({";
    lit "  a: 1,";
    lit "}; // end";
    lit "const x = {";
    lit "};" ].

Definition nested_lines : list text :=
  [ lit "const styles = StyleSheet.create({";
    lit "  box: { flex: 1 },";
    lit "  };  " ].

(** A file with the framework import and no style declaration. *)
Definition react_only_source : text := lit
"import React from 'react';
".

(** A file that names the wrapping call in a comment only. *)
Definition commented_source : text := lit
"// TODO: use StyleSheet.create here
const styles = {
  foo: 1,
};".

(** A file in which the symbol is part of another identifier. *)
Definition identifier_source : text := lit
"import { View } from 'react-native';
const MyStyleSheetCache = {};".

Definition two_styles_source : text := lit
"const styles = { a: 1 };
const headerStyle = { b: 2 };".

Definition find_output : text := lit
"src/tandapay/A.js
src/tandapay/B.js
src/tandapay/C.js
".

(** A file with one wrapped and one plain style declaration. *)
Definition mixed_source : text := lit
"const styles = StyleSheet.create({});
const rowStyle = { a: 1 };".

(** The disk of a small project. *)
Definition project_disk : gmap string disk_file :=
  {[ "src/tandapay/A.js" := Text two_styles_source;
     "src/tandapay/B.js" := Text mixed_source;
     "src/tandapay/C.js" := Unreadable "PermissionError" ]}.

(** A disk that holds one of the fixer's targets. *)
Definition target_disk : gmap string disk_file :=
  {[ "src/tandapay/wallet/WalletSendScreen.js" := Text scenario_source;
     "src/tandapay/components/TokenPicker.js" := Text mixed_source ]}.

(** A declaration that is exported, closed by a bare terminator. *)
Definition exported_source : text := lit
"export const styles = {
  a: 1,
};".

Definition exported_result : text := lit
"export const styles = StyleSheet.create({
  a: 1,
};".

(** Two framework imports and a comment before the first. *)
Definition two_imports_source : text := lit
"// app
import React from 'react';
import ReactDOM from 'react-dom';
const x = 1;".

(** A disk on which the third target cannot be read. *)
Definition blocked_disk : gmap string disk_file :=
  {[ "src/tandapay/wallet/wallet-setup/components/WordChip.js"
       := Text scenario_source;
     "src/tandapay/wallet/WalletSendScreen.js" := Unreadable "PermissionError";
     "src/tandapay/wallet/TransactionDetailsModal.js" := Text bare_source ]}.

(** A file without any import, with one style declaration. *)
Definition plain_source : text := lit
"const rowStyle = {
  flex: 1,
};".

Definition plain_fixed : text := lit
"const rowStyle = StyleSheet.create({
  flex: 1,
});".

(** A disk on which the first target cannot be read and no other
    target exists. *)
Definition first_blocked_disk : gmap string disk_file :=
  {[ "src/tandapay/wallet/wallet-setup/components/VerificationRow.js"
       := Unreadable "PermissionError" ]}.

End Examples.

Import Examples.

(** ** What a match is

    The matcher read as a relation: how the text at the head of a match
    is made up, item by item. *)

Module Matching.

(** The numbers of characters an item with quantifier [q] may take. *)
Inductive reps : quant -> nat -> Prop :=
| reps_once : reps Once 1
| reps_none : reps Maybe 0
| reps_one : reps Maybe 1
| reps_many n : reps Many n
| reps_many1 n : reps Many1 (S n).

Fixpoint shift_by (n : nat) (r : span) : span :=
  match n with
  | O => r
  | S n' => shift (shift_by n' r)
  end.

(** [derives re s r]: the pattern [re] matches at the head of [s], with
    the span [r]. *)
Inductive derives : regex -> text -> span -> Prop :=
| derives_nil s : derives [] s (Span 0 0 0)
| derives_open re s r :
    derives re s r -> derives (GroupOpen :: re) s (opened r)
| derives_close re s r :
    derives re s r -> derives (GroupClose :: re) s (closed r)
| derives_atom k q re cs s r :
    reps q (length cs) ->
    Forall (fun a => cls_match k a = true) cs ->
    derives re s r ->
    derives (Atom k q :: re) (cs ++ s) (shift_by (length cs) r).

(** [spells re m]: the items of [re] take exactly the text [m]. *)
Inductive spells : regex -> text -> Prop :=
| spells_nil : spells [] []
| spells_open re m : spells re m -> spells (GroupOpen :: re) m
| spells_close re m : spells re m -> spells (GroupClose :: re) m
| spells_atom k q re cs m :
    reps q (length cs) ->
    Forall (fun a => cls_match k a = true) cs ->
    spells re m ->
    spells (Atom k q :: re) (cs ++ m).

Definition is_atom (n : node) : Prop :=
  match n with
  | Atom _ _ => True
  | _ => False
  end.

(** The greedy loop of the matcher for an item under a star. *)
Definition greedy (k : cls) (rest : text -> option span)
  : text -> option span :=
  fix many (s : text) : option span :=
    match s with
    | a :: s' =>
        if cls_match k a
        then match many s' with
             | Some r => Some (shift r)
             | None => rest s
             end
        else rest s
    | [] => rest s
    end.

(** The part of [style_pattern] before the group, the group, and the
    part after it. *)
Definition style_head : regex := chars "const" ++ [Atom Space Many1].

Definition style_name : regex :=
  [Atom Word Many; Atom (AnyOf ["S"; "s"]%char) Once] ++ chars "tyle" ++
  [Atom (Chr "s") Maybe; Atom Word Many].

Definition style_tail : regex :=
  [Atom Space Many; Atom (Chr "=") Once; Atom Space Many; Atom (Chr "{") Once].

End Matching.

Import Matching.

(** ** The script part of find_unwrapped_styles.py *)

Module ScannerScript.

(** What the script prints: the lines of the scan and its own. *)
Inductive script_line :=
| Scanned (m : message)
| SearchBanner
    (* "Searching for style definitions that need StyleSheet.create wrapping..." *)
| SummaryHeader
    (* "Summary:" *)
| FoundCount (n : nat)
    (* "Found {len(unwrapped)} files with unwrapped styles" *)
| NeedFixingHeader
    (* "Files that need fixing:" *)
| NeedsFixing (file_path : string).
    (* "  - {item['file']}" *)

(** The block under [if __name__ == "__main__":], given what [find]
    printed and the disk: the outcome, the disk left and the lines
    printed, in order. *)
Definition scanner_main (stdout : text) (d : gmap string disk_file)
  : outcome unit * gmap string disk_file * list script_line :=
  match find_unwrapped_styles stdout (World d []) with
  | (Ret unwrapped, w) =>
      let out :=
        [SearchBanner] ++ map Scanned (console w) ++
        [SummaryHeader; FoundCount (length unwrapped)] in
      (Ret tt, disk w,
       match unwrapped with
       | [] => out
       | _ :: _ =>
           out ++ [NeedFixingHeader] ++
           map (fun item => NeedsFixing (file item)) unwrapped
       end)
  | (Raise e, w) =>
      (Raise e, disk w, [SearchBanner] ++ map Scanned (console w))
  end.

End ScannerScript.

Import ScannerScript.

(** ** Further vocabulary *)

Module Behaviour.

(** What the closing pass may do to one line: nothing, or turn a bare
    terminator into the end of the call, its white space kept. *)
Definition line_step (l l' : text) : Prop :=
  l' = l \/
  exists pre post,
    l = pre ++ lit "};" ++ post /\ l' = pre ++ lit "});" ++ post /\
    forallb is_space pre = true /\ forallb is_space post = true.

(** The line says that [p] was modified. *)
Definition modified_line (p : string) (m : message) : bool :=
  match m with
  | Modified q _ => bool_decide (q = p)
  | _ => false
  end.

(** The line says that some file was modified. *)
Definition any_modified_line (m : message) : bool :=
  match m with
  | Modified _ _ => true
  | _ => false
  end.

(** A path as [find] prints it: under the scanned directory, with the
    extension asked for, and on one line. *)
Definition found_path (p : string) : Prop :=
  exists mid, lit p = lit "src/tandapay" ++ mid ++ lit ".js" /\
              ~ In newline mid.

(** What [find] prints for the paths [ps]: each on a line of its own. *)
Definition find_prints (ps : list string) : text :=
  concat (map (fun p => lit p ++ [newline]) ps).

(** The import line the fixer adds. *)
Definition stylesheet_import : text :=
  lit "import { StyleSheet } from 'react-native';".

(** The file at [p] can be read, declares a style and does not hold
    the wrapping call. *)
Definition needs_fixing (d : gmap string disk_file) (p : string) : bool :=
  match d !! p with
  | Some (Text c) =>
      match findall style_pattern c with
      | [] => false
      | _ :: _ => negb (contains wrap_call c)
      end
  | _ => false
  end.

End Behaviour.

Import Behaviour.

(** ** Facts about the string operations *)

Section text_facts.

Implicit Types (x s l pre post : text) (a c : ascii) (ls : list text).

Lemma starts_with_true x s :
  starts_with x s = true <-> exists post, s = x ++ post.
Proof.
  revert s. induction x as [|a x IH]; intros s; simpl.
  - split; [intros _; exists s; reflexivity | reflexivity].
  - destruct s as [|b s]; simpl.
    + split; [discriminate | intros [post H]; discriminate].
    + rewrite andb_true_iff, Ascii.eqb_eq, IH. split.
      * intros [-> [post ->]]. exists post. reflexivity.
      * intros [post H]. injection H as -> ->. split; eauto.
Qed.

Lemma contains_true x s :
  contains x s = true <-> exists pre post, s = pre ++ x ++ post.
Proof.
  induction s as [|b s IH]; simpl.
  - rewrite orb_false_r, starts_with_true. split.
    + intros [post H]. exists [], post. exact H.
    + intros [pre [post H]]. destruct pre as [|p pre]; [eauto|discriminate].
  - rewrite orb_true_iff, starts_with_true, IH. split.
    + intros [[post H]|[pre [post H]]].
      * exists [], post. exact H.
      * exists (b :: pre), post. rewrite H. reflexivity.
    + intros [pre [post H]]. destruct pre as [|p pre]; simpl in H.
      * left. eauto.
      * right. injection H as -> ->. eauto.
Qed.

Lemma contains_cons x a s : contains x s = true -> contains x (a :: s) = true.
Proof. intros H. simpl. rewrite H. apply orb_true_r. Qed.

Lemma contains_app_r x pre s :
  contains x s = true -> contains x (pre ++ s) = true.
Proof. induction pre; simpl; intros H; [exact H|]. rewrite IHpre by exact H. apply orb_true_r. Qed.

Lemma contains_app_l x s post :
  contains x s = true -> contains x (s ++ post) = true.
Proof.
  rewrite !contains_true. intros [pre [post' ->]].
  exists pre, (post' ++ post). rewrite <- !app_assoc. reflexivity.
Qed.

Lemma contains_In x a s :
  contains x s = true -> In a x -> In a s.
Proof.
  rewrite contains_true. intros [pre [post ->]] H.
  apply in_or_app. right. apply in_or_app. left. exact H.
Qed.

(** *** [split] and [join] *)

Lemma split_not_nil sep s : split sep s <> [].
Proof. destruct s as [|a s]; simpl; [discriminate|]. destruct (Ascii.eqb a sep); [discriminate|]. destruct (split sep s); discriminate. Qed.

Lemma join_cons sep l ls :
  ls <> [] -> join sep (l :: ls) = l ++ sep :: join sep ls.
Proof. destruct ls; [congruence|reflexivity]. Qed.

Lemma join_split sep s : join sep (split sep s) = s.
Proof.
  induction s as [|a s IH]; simpl; [reflexivity|].
  destruct (Ascii.eqb_spec a sep) as [->|Hne].
  - rewrite join_cons by apply split_not_nil. rewrite IH. reflexivity.
  - pose proof (split_not_nil sep s) as Hn.
    destruct (split sep s) as [|l ls]; [congruence|].
    destruct ls as [|l' ls]; simpl in *; rewrite <- IH; reflexivity.
Qed.

Lemma contains_join x sep l ls :
  In l ls -> contains x l = true -> contains x (join sep ls) = true.
Proof.
  induction ls as [|l0 ls IH]; intros Hin Hc; [destruct Hin|].
  destruct ls as [|l1 ls].
  - destruct Hin as [->|[]]. exact Hc.
  - rewrite join_cons by discriminate. destruct Hin as [->|Hin].
    + apply contains_app_l. exact Hc.
    + apply contains_app_r, contains_cons, IH; assumption.
Qed.

Lemma starts_with_split_head x sep s :
  ~ In sep x -> starts_with x s = true ->
  exists l ls, split sep s = l :: ls /\ starts_with x l = true.
Proof.
  revert s. induction x as [|a x IH]; intros s Hsep H.
  - pose proof (split_not_nil sep s). destruct (split sep s) as [|l ls]; [congruence|].
    exists l, ls. split; reflexivity.
  - destruct s as [|b s]; simpl in H; [discriminate|].
    apply andb_true_iff in H as [Hab H]. apply Ascii.eqb_eq in Hab as <-.
    simpl. destruct (Ascii.eqb_spec a sep) as [->|Hne].
    + exfalso. apply Hsep. left. reflexivity.
    + destruct (IH s) as [l [ls [E Hl]]]; [intros Hin; apply Hsep; right; exact Hin|exact H|].
      rewrite E. exists (a :: l), ls. split; [reflexivity|].
      simpl. rewrite Ascii.eqb_refl. exact Hl.
Qed.

Lemma contains_split x sep s :
  ~ In sep x -> contains x s = true ->
  exists l, In l (split sep s) /\ contains x l = true.
Proof.
  intros Hsep. induction s as [|b s IH]; intros H.
  - simpl in H. rewrite orb_false_r in H. exists []. split; [left; reflexivity|].
    simpl. rewrite H. reflexivity.
  - simpl in H. apply orb_true_iff in H as [H|H].
    + destruct (starts_with_split_head x sep (b :: s) Hsep H) as [l [ls [E Hl]]].
      exists l. rewrite E. split; [left; reflexivity|].
      destruct l; simpl; rewrite Hl; reflexivity.
    + destruct (IH H) as [l [Hin Hl]]. simpl.
      destruct (Ascii.eqb b sep).
      * exists l. split; [right; exact Hin|exact Hl].
      * destruct (split sep s) as [|l0 ls]; [destruct Hin|].
        destruct Hin as [->|Hin].
        -- exists (b :: l). split; [left; reflexivity|apply contains_cons; exact Hl].
        -- exists l. split; [right; exact Hin|exact Hl].
Qed.

(** *** [strip] *)

Lemma lstrip_decompose s :
  exists pre, s = pre ++ lstrip s /\ forallb is_space pre = true.
Proof.
  induction s as [|a s [pre [E Hp]]]; simpl.
  - exists []. split; reflexivity.
  - destruct (is_space a) eqn:Ha.
    + exists (a :: pre). simpl. rewrite Ha, Hp, <- E. split; reflexivity.
    + exists []. split; reflexivity.
Qed.

Lemma forallb_rev {A} (f : A -> bool) (l : list A) :
  forallb f (rev l) = forallb f l.
Proof.
  induction l as [|a l IH]; simpl; [reflexivity|].
  rewrite forallb_app, IH. simpl. rewrite andb_true_r. apply andb_comm.
Qed.

Lemma rstrip_decompose s :
  exists post, s = rstrip s ++ post /\ forallb is_space post = true.
Proof.
  unfold rstrip. destruct (lstrip_decompose (rev s)) as [pre [E Hp]].
  exists (rev pre). split.
  - rewrite <- rev_app_distr, <- E, rev_involutive. reflexivity.
  - rewrite forallb_rev. exact Hp.
Qed.

(** A line is its stripped text between two runs of white space. *)
Lemma strip_decompose s :
  exists pre post,
    s = pre ++ strip s ++ post /\
    forallb is_space pre = true /\ forallb is_space post = true.
Proof.
  destruct (lstrip_decompose s) as [pre [E Hp]].
  destruct (rstrip_decompose (lstrip s)) as [post [E' Hq]].
  exists pre, post. unfold strip. rewrite <- E', <- E. auto.
Qed.

End text_facts.

(** *** [replace] on a bare terminator line *)

Lemma starts_with_terminator_space (a : ascii) (s : text) :
  is_space a = true -> starts_with (lit "};") (a :: s) = false.
Proof.
  intros Ha. unfold lit. cbn [list_ascii_of_string starts_with].
  destruct (Ascii.eqb_spec "}" a) as [<-|_]; [discriminate Ha|reflexivity].
Qed.

Lemma replace_spaces (post : text) :
  forallb is_space post = true ->
  replace_from (lit "};") (lit "});") post 0 = post.
Proof.
  induction post as [|a post IH]; [reflexivity|].
  intros H. cbn [forallb] in H. apply andb_true_iff in H as [Ha H].
  cbn [replace_from]. rewrite starts_with_terminator_space by exact Ha.
  rewrite IH by exact H. reflexivity.
Qed.

Lemma replace_bare (pre post : text) :
  forallb is_space pre = true -> forallb is_space post = true ->
  replace (lit "};") (lit "});") (pre ++ lit "};" ++ post)
  = pre ++ lit "});" ++ post.
Proof.
  intros Hp Hq. unfold replace.
  induction pre as [|a pre IH].
  - change (replace_from (lit "};") (lit "});") ([] ++ lit "};" ++ post) 0)
      with (lit "});" ++ replace_from (lit "};") (lit "});") post 0).
    rewrite replace_spaces by exact Hq. reflexivity.
  - cbn [forallb] in Hp. apply andb_true_iff in Hp as [Ha Hp].
    rewrite <- !app_comm_cons. cbn [replace_from].
    rewrite starts_with_terminator_space by exact Ha.
    rewrite IH by exact Hp. reflexivity.
Qed.

(** ** Facts about the matcher *)

Section regex_facts.

Implicit Types (re : regex) (s x : text) (repl : list piece).

(** A pattern of literal characters matches exactly its own text. *)
Lemma match_here_literal x s :
  is_Some (match_here (map (fun c => Atom (Chr c) Once) x) s)
  <-> starts_with x s = true.
Proof.
  revert s. induction x as [|a x IH]; intros s; simpl.
  - split; [reflexivity | intros _; eexists; reflexivity].
  - destruct s as [|b s]; simpl.
    + split; [intros [r H]; discriminate | discriminate].
    + destruct (Ascii.eqb a b); simpl.
      * rewrite <- IH, fmap_is_Some. reflexivity.
      * split; [intros [r H]; discriminate | discriminate].
Qed.

Lemma match_here_literal_bool x s :
  match match_here (map (fun c => Atom (Chr c) Once) x) s with
  | Some _ => true
  | None => false
  end = starts_with x s.
Proof.
  pose proof (match_here_literal x s) as [H1 H2].
  destruct (match_here _ s) as [r|]; destruct (starts_with x s); try reflexivity.
  - symmetry. apply H1. eexists; reflexivity.
  - destruct (H2 eq_refl) as [r Hr]. discriminate Hr.
Qed.

(** Searching for a literal pattern is the substring test. *)
Lemma search_literal x s :
  search (map (fun c => Atom (Chr c) Once) x) s = contains x s.
Proof.
  induction s as [|b s IH]; cbn [search contains];
    rewrite <- match_here_literal_bool;
    destruct (match_here _ _); try reflexivity.
  exact IH.
Qed.

(** When the pattern is found at all, the substituted text holds every
    text that each expansion of the replacement holds. *)
Lemma sub_from_contains re repl x s skip :
  (forall g, contains x (expand repl g) = true) ->
  findall_from re s skip <> [] ->
  contains x (sub_from re repl s skip) = true.
Proof.
  intros Hx. revert skip. induction s as [|a s IH]; intros skip H.
  - simpl in *. destruct skip; [|congruence].
    destruct (match_here re []); [apply Hx|congruence].
  - simpl in *. destruct skip as [|k]; [|apply IH; exact H].
    destruct (match_here re (a :: s)) as [r|].
    + apply contains_app_l, Hx.
    + apply contains_cons, IH, H.
Qed.

Lemma sub_contains re repl x s :
  (forall g, contains x (expand repl g) = true) ->
  findall re s <> [] ->
  contains x (sub re repl s) = true.
Proof. apply sub_from_contains. Qed.

End regex_facts.

(** ** The fixer: one file *)

Section fixer_file.

Implicit Types (w : world) (p q : string) (c : text) (d : gmap string disk_file).

(** What one reading of [wrap_styles_with_stylesheet] does, by the
    state of the file. *)
Lemma wrap_styles_run p w :
  wrap_styles_with_stylesheet p w =
  match disk w !! p with
  | None => (Raise "FileNotFoundError", w)
  | Some (Unreadable e) => (Raise e, w)
  | Some (Text c) =>
      if contains wrap_call c
      then (Ret false, World (disk w) (console w ++ [AlreadyUses p]))
      else
        match findall style_pattern (add_stylesheet_import c) with
        | [] => (Ret false, w)
        | v :: vs =>
            (Ret true,
             World (<[p := Text (wrap_content (add_stylesheet_import c))]> (disk w))
                   (console w ++ [Modified p (v :: vs)]))
        end
  end.
Proof.
  unfold wrap_styles_with_stylesheet, fix_stylesheet_imports, wrap_call.
  destruct w as [d out]. unfold bind at 1. unfold read_text at 1.
  cbn [disk console].
  destruct (d !! p) as [[c|e]|] eqn:E; try reflexivity.
  destruct (contains (lit "StyleSheet.create") c); [reflexivity|].
  unfold bind, read_text, ret, print, write_text. cbn [disk console]. rewrite E.
  destruct (findall style_pattern (add_stylesheet_import c)); reflexivity.
Qed.

(** Every expansion of the style replacement holds the wrapping call. *)
Lemma style_replacement_wrap_call g :
  contains wrap_call (expand style_replacement g) = true.
Proof.
  apply contains_true. exists (lit "const " ++ g ++ lit " = "), (lit "({").
  unfold expand, style_replacement. cbn [map concat].
  rewrite <- !app_assoc, app_nil_r. reflexivity.
Qed.

(** A bare terminator line does not hold the wrapping call. *)
Lemma bare_line_no_wrap_call (l : text) :
  strip l = lit "};" -> contains wrap_call l = false.
Proof.
  intros Hs. destruct (contains wrap_call l) eqn:Hc; [exfalso|reflexivity].
  assert (HS : In "S"%char l).
  { apply (contains_In wrap_call); [exact Hc|]. left. reflexivity. }
  destruct (strip_decompose l) as [pre [post [E [Hp Hq]]]].
  rewrite Hs in E. rewrite E in HS.
  rewrite forallb_forall in Hp, Hq.
  apply in_app_or in HS as [HS|HS]; [apply Hp in HS; discriminate HS|].
  apply in_app_or in HS as [HS|HS]; [|apply Hq in HS; discriminate HS].
  destruct HS as [HS|[HS|[]]]; discriminate HS.
Qed.

Lemma close_scan_keeps (ls : list text) (bc : Z) (l : text) :
  In l ls -> contains wrap_call l = true -> In l (close_scan ls bc).
Proof.
  revert bc. induction ls as [|l0 ls IH]; intros bc Hin Hc; [destruct Hin|].
  cbn [close_scan].
  destruct (_ && _).
  - case_bool_decide as Hb; [|exact Hin].
    destruct Hin as [->|Hin]; [|right; exact Hin].
    rewrite (bare_line_no_wrap_call _ Hb) in Hc. discriminate Hc.
  - destruct Hin as [->|Hin]; [left; reflexivity|right; apply IH; assumption].
Qed.

Lemma close_decl_keeps (lines : list text) (i : nat) (l : text) :
  In l lines -> contains wrap_call l = true -> In l (close_decl lines i).
Proof.
  intros Hin Hc. unfold close_decl.
  destruct (lines !! i); [|exact Hin].
  destruct (matches _ _); [|exact Hin].
  rewrite <- (take_drop i lines) in Hin.
  apply in_app_or in Hin as [Hin|Hin]; apply in_or_app;
    [left; exact Hin | right; apply close_scan_keeps; assumption].
Qed.

Lemma close_all_keeps (lines : list text) (l : text) :
  In l lines -> contains wrap_call l = true -> In l (close_all lines).
Proof.
  unfold close_all. generalize (seq 0 (length lines)) as idx.
  intros idx. revert lines. induction idx as [|i idx IH]; intros lines Hin Hc.
  - exact Hin.
  - cbn [fold_left]. apply IH; [apply close_decl_keeps; assumption|exact Hc].
Qed.

(** The content the fixer writes always holds the wrapping call. *)
Lemma wrap_content_wrap_call c :
  findall style_pattern c <> [] ->
  contains wrap_call (wrap_content c) = true.
Proof.
  intros Hf. unfold wrap_content.
  pose proof (sub_contains style_pattern style_replacement wrap_call c
                style_replacement_wrap_call Hf) as Hsub.
  assert (Hnl : ~ In newline wrap_call).
  { vm_compute. intuition discriminate. }
  destruct (contains_split wrap_call newline _ Hnl Hsub) as [l [Hin Hl]].
  apply (contains_join _ _ l); [apply close_all_keeps; assumption|exact Hl].
Qed.

End fixer_file.

(** ** The fixer: where a declaration is closed *)

Section closing.

Implicit Types (lines ls : list text) (l : text) (i j k : nat) (bc : Z).

Lemma brace_count_take_S l0 ls k :
  brace_count (take (S k) (l0 :: ls))
  = ((count "{" l0 - count "}" l0) + brace_count (take k ls))%Z.
Proof. reflexivity. Qed.

Lemma brace_count_take_0 ls : brace_count (take 0 ls) = 0%Z.
Proof. reflexivity. Qed.

Lemma close_scan_first ls bc k l :
  ls !! k = Some l ->
  (bc + brace_count (take (S k) ls) = 0)%Z ->
  has_char "}" l = true ->
  (forall k' l', k' < k -> ls !! k' = Some l' ->
     ~ ((bc + brace_count (take (S k') ls) = 0)%Z /\ has_char "}" l' = true)) ->
  close_scan ls bc =
    if bool_decide (strip l = lit "};") then <[k := rewrite_line l]> ls else ls.
Proof.
  revert bc k. induction ls as [|l0 ls IH]; intros bc k Hk Hd Hc Hfirst.
  - discriminate Hk.
  - destruct k as [|k].
    + injection Hk as ->. rewrite brace_count_take_S, brace_count_take_0 in Hd.
      cbn [close_scan]. rewrite Hc.
      replace (bc + (count "{" l - count "}" l))%Z with 0%Z by lia.
      cbn [Z.eqb andb]. destruct (bool_decide _); reflexivity.
    + cbn [close_scan].
      assert (Hno : ((bc + (count "{" l0 - count "}" l0) =? 0)%Z
                     && has_char "}" l0) = false).
      { apply not_true_is_false. intros H. apply andb_true_iff in H as [H1 H2].
        apply (Hfirst 0 l0); [lia|reflexivity|]. split; [|exact H2].
        apply Z.eqb_eq in H1. rewrite brace_count_take_S, brace_count_take_0. lia. }
      rewrite Hno.
      rewrite (IH (bc + (count "{" l0 - count "}" l0))%Z k); [| exact Hk | | exact Hc |].
      * destruct (bool_decide _); reflexivity.
      * rewrite brace_count_take_S in Hd. lia.
      * intros k' l' Hlt Hl' [H1 H2]. apply (Hfirst (S k') l'); [lia|exact Hl'|].
        split; [|exact H2].
        rewrite brace_count_take_S. lia.
Qed.

Lemma close_scan_none ls bc :
  (forall k l, ls !! k = Some l ->
     ~ ((bc + brace_count (take (S k) ls) = 0)%Z /\ has_char "}" l = true)) ->
  close_scan ls bc = ls.
Proof.
  revert bc. induction ls as [|l0 ls IH]; intros bc Hno; [reflexivity|].
  cbn [close_scan].
  assert (H0 : ((bc + (count "{" l0 - count "}" l0) =? 0)%Z
                && has_char "}" l0) = false).
  { apply not_true_is_false. intros H. apply andb_true_iff in H as [H1 H2].
    apply (Hno 0 l0); [reflexivity|]. split; [|exact H2].
    apply Z.eqb_eq in H1. rewrite brace_count_take_S, brace_count_take_0. lia. }
  rewrite H0. f_equal. apply IH. intros k l Hl [H1 H2].
  apply (Hno (S k) l); [exact Hl|]. split; [|exact H2].
  rewrite brace_count_take_S. lia.
Qed.

Lemma closes_drop lines i k l :
  drop i lines !! k = Some l ->
  (0 + brace_count (take (S k) (drop i lines)) = 0)%Z /\ has_char "}" l = true
  <-> closes lines i (i + k).
Proof.
  intros Hl. rewrite lookup_drop in Hl. unfold closes, depth.
  replace (S (i + k) - i) with (S k) by lia. split.
  - intros [H1 H2]. split; [lia|]. exists l. split; [exact Hl|]. split; [lia|exact H2].
  - intros [_ [l' [Hl' [H1 H2]]]]. rewrite Hl in Hl'. injection Hl' as <-.
    split; [lia|exact H2].
Qed.

End closing.

(** ** The fixer: the loop over the target list *)

Section fixer_loop.

Implicit Types (w : world) (p q : string) (c : text)
  (d : gmap string disk_file) (f : disk_file) (files : list string).

Lemma fixed_wrap_call c c' :
  fixed (Text c) = Text c' -> c' <> c -> contains wrap_call c' = true.
Proof.
  unfold fixed. destruct (contains wrap_call c); [congruence|].
  destruct (findall _ _) as [|v vs] eqn:E; [congruence|].
  intros [= <-] _. apply wrap_content_wrap_call. rewrite E. discriminate.
Qed.

(** A file the fixer has left behind is left alone the next time. *)
Lemma fixed_idem f : fixed (fixed f) = fixed f.
Proof.
  destruct f as [c|e]; [|reflexivity].
  destruct (fixed (Text c)) as [c'|e'] eqn:E.
  - destruct (decide (c' = c)) as [->|Hne]; [exact E|].
    unfold fixed at 1. rewrite (fixed_wrap_call _ _ E Hne). reflexivity.
  - reflexivity.
Qed.

Lemma fixed_readable f e : fixed f = Unreadable e -> f = Unreadable e.
Proof.
  destruct f as [c|e']; [|auto]. unfold fixed.
  destruct (contains _ _); [discriminate|]. destruct (findall _ _); discriminate.
Qed.

Lemma alter_fixed_lookup d p q :
  alter fixed p d !! q = if decide (p = q) then fixed <$> d !! q else d !! q.
Proof. rewrite lookup_alter. destruct (decide (p = q)) as [->|]; reflexivity. Qed.

Lemma alter_fixed_same d p :
  fixed <$> d !! p = d !! p -> alter fixed p d = d.
Proof.
  intros H. apply alter_id. intros f Hf. rewrite Hf in H. injection H. auto.
Qed.

(** One round of the loop of [main]. *)
Lemma fix_loop_visit p files n w :
  match disk w !! p with
  | Some (Unreadable e) => fix_loop (p :: files) n w = (Raise e, w)
  | o =>
      fix_loop (p :: files) n w =
      fix_loop files
        (if bool_decide (fixed <$> o <> o) then S n else n)
        (World (alter fixed p (disk w)) (console w ++ visit_lines p o))
  end.
Proof.
  destruct w as [d out]. cbn [disk console].
  destruct (d !! p) as [[c|e]|] eqn:E;
    cbn [fix_loop]; unfold bind at 1; unfold path_exists;
    cbn [disk console]; rewrite E.
  - rewrite bool_decide_eq_true_2 by eauto.
    unfold bind at 1. rewrite wrap_styles_run. cbn [disk console]. rewrite E.
    cbn [fmap option_fmap option_map visit_lines fixed].
    destruct (contains wrap_call c) eqn:Ec.
    + rewrite bool_decide_eq_false_2 by (intros H; apply H; reflexivity).
      rewrite alter_fixed_same; [reflexivity|].
      rewrite E. cbn [fmap option_fmap option_map fixed]. rewrite Ec. reflexivity.
    + destruct (findall style_pattern (add_stylesheet_import c)) as [|v vs] eqn:Ef.
      * rewrite bool_decide_eq_false_2 by (intros H; apply H; reflexivity).
        rewrite app_nil_r. rewrite alter_fixed_same; [reflexivity|].
        rewrite E. cbn [fmap option_fmap option_map fixed]. rewrite Ec, Ef. reflexivity.
      * assert (Hne : Some (Text (wrap_content (add_stylesheet_import c)))
                      <> Some (Text c)).
        { intros [= H].
          pose proof (wrap_content_wrap_call (add_stylesheet_import c)) as Hw.
          rewrite H, Ec, Ef in Hw. discriminate Hw. discriminate. }
        rewrite bool_decide_eq_true_2 by exact Hne.
        do 2 f_equal. apply map_eq. intros q.
        rewrite alter_fixed_lookup, lookup_insert.
        destruct (decide (p = q)) as [<-|]; [|reflexivity].
        rewrite E. cbn [fmap option_fmap option_map fixed]. rewrite Ec, Ef. reflexivity.
  - rewrite bool_decide_eq_true_2 by eauto.
    unfold bind at 1. rewrite wrap_styles_run. cbn [disk console]. rewrite E.
    reflexivity.
  - rewrite bool_decide_eq_false_2 by (intros [x Hx]; discriminate Hx).
    unfold bind at 1. unfold print. cbn [disk console fmap option_fmap option_map visit_lines].
    rewrite bool_decide_eq_false_2 by (intros H; apply H; reflexivity).
    rewrite alter_id' by exact E. reflexivity.
Qed.

Lemma fix_loop_visit_ok p files n w :
  (forall e, disk w !! p <> Some (Unreadable e)) ->
  fix_loop (p :: files) n w =
  fix_loop files
    (if bool_decide (fixed <$> disk w !! p <> disk w !! p) then S n else n)
    (World (alter fixed p (disk w)) (console w ++ visit_lines p (disk w !! p))).
Proof.
  intros H. pose proof (fix_loop_visit p files n w) as Hv.
  destruct (disk w !! p) as [[c|e]|]; [exact Hv| |exact Hv].
  destruct (H e). reflexivity.
Qed.

Lemma fix_loop_visit_raise p files n w e :
  disk w !! p = Some (Unreadable e) ->
  fix_loop (p :: files) n w = (Raise e, w).
Proof.
  intros H. pose proof (fix_loop_visit p files n w) as Hv.
  rewrite H in Hv. exact Hv.
Qed.

Lemma readable_cases (o : option disk_file) :
  (exists e, o = Some (Unreadable e)) \/ (forall e, o <> Some (Unreadable e)).
Proof. destruct o as [[c|e]|]; [right|left|right]; eauto; discriminate. Qed.

(** Files the fixer would leave alone are never touched by the loop. *)
Lemma fix_loop_settled files n w r w' :
  fix_loop files n w = (r, w') ->
  forall q, fixed <$> disk w !! q = disk w !! q -> disk w' !! q = disk w !! q.
Proof.
  revert n w. induction files as [|p files IH]; intros n w H q Hq.
  - injection H as _ <-. reflexivity.
  - destruct (readable_cases (disk w !! p)) as [[e He]|Hr].
    + rewrite (fix_loop_visit_raise _ _ _ _ _ He) in H. injection H as _ <-.
      reflexivity.
    + rewrite (fix_loop_visit_ok _ _ _ _ Hr) in H.
      assert (Hmid : alter fixed p (disk w) !! q = disk w !! q).
      { rewrite alter_fixed_lookup. destruct (decide (p = q)); [exact Hq|reflexivity]. }
      apply IH with (q := q) in H; cbn [disk] in *; rewrite Hmid in *; assumption.
Qed.

(** The second run: on a disk that agrees, at the targets, with the one
    a first run left, the loop writes nothing, counts nothing, raises
    exactly when the first run did, and greets every file the first run
    changed as already wrapped. *)
Lemma fix_loop_again files :
  forall n w r1 w1, fix_loop files n w = (r1, w1) ->
  forall n2 w2, (forall p, In p files -> disk w2 !! p = disk w1 !! p) ->
  exists r2 out,
    fix_loop files n2 w2 = (r2, World (disk w2) out) /\
    (match r1 with Ret _ => r2 = Ret n2 | Raise e => r2 = Raise e end) /\
    (forall m, In m (console w2) -> In m out) /\
    (forall q, disk w1 !! q <> disk w !! q -> In (AlreadyUses q) out).
Proof.
  induction files as [|p files IH]; intros n w r1 w1 H n2 w2 Hag.
  - injection H as <- <-. exists (Ret n2), (console w2).
    destruct w2 as [d2 o2]. repeat split; auto. intros q Hq. destruct Hq. reflexivity.
  - destruct (readable_cases (disk w !! p)) as [[e He]|Hr].
    + rewrite (fix_loop_visit_raise _ _ _ _ _ He) in H. injection H as <- <-.
      exists (Raise e), (console w2). destruct w2 as [d2 o2].
      rewrite (fix_loop_visit_raise p files n2 _ e)
        by (cbn [disk]; rewrite <- He; apply (Hag p); left; reflexivity).
      repeat split; auto. intros q Hq. destruct Hq. reflexivity.
    + rewrite (fix_loop_visit_ok _ _ _ _ Hr) in H.
      set (wm := World (alter fixed p (disk w))
                       (console w ++ visit_lines p (disk w !! p))) in H.
      assert (Hp1 : disk w1 !! p = fixed <$> disk w !! p).
      { rewrite (fix_loop_settled _ _ _ _ _ H p); cbn [wm disk];
          rewrite alter_fixed_lookup, decide_True by reflexivity; [reflexivity|].
        destruct (disk w !! p) as [f|]; [|reflexivity].
        cbn [fmap option_fmap option_map]. rewrite fixed_idem. reflexivity. }
      assert (Hp2 : disk w2 !! p = fixed <$> disk w !! p).
      { rewrite <- Hp1. apply Hag. left. reflexivity. }
      assert (Hset : fixed <$> disk w2 !! p = disk w2 !! p).
      { rewrite Hp2. destruct (disk w !! p) as [f|]; [|reflexivity].
        cbn [fmap option_fmap option_map]. rewrite fixed_idem. reflexivity. }
      assert (Hr2 : forall e, disk w2 !! p <> Some (Unreadable e)).
      { intros e He. rewrite Hp2 in He. destruct (disk w !! p) as [f|] eqn:Ef; [|discriminate].
        injection He as He. apply fixed_readable in He. subst f. destruct (Hr e). reflexivity. }
      rewrite (fix_loop_visit_ok _ _ _ _ Hr2).
      rewrite bool_decide_eq_false_2 by (intros Hne; apply Hne; exact Hset).
      rewrite (alter_fixed_same _ _ Hset).
      destruct (IH _ _ _ _ H n2
                  (World (disk w2) (console w2 ++ visit_lines p (disk w2 !! p))))
        as [r2 [out [E2 [Hres [Hmono Hall]]]]].
      { intros p' Hp'. cbn [disk]. apply Hag. right. exact Hp'. }
      exists r2, out. cbn [disk] in E2. split; [exact E2|]. split; [exact Hres|].
      split.
      { intros m Hm. apply Hmono. cbn [console]. apply in_or_app. left. exact Hm. }
      intros q Hq.
      destruct (decide (disk w1 !! q = disk wm !! q)) as [Heq|Hne];
        [|apply Hall; exact Hne].
      rewrite Heq in Hq. cbn [wm disk] in Hq. rewrite alter_fixed_lookup in Hq.
      destruct (decide (p = q)) as [<-|]; [|destruct Hq; reflexivity].
      apply Hmono. cbn [console]. apply in_or_app. right.
      rewrite Hp2. destruct (disk w !! p) as [[c|e]|] eqn:Ef;
        [|destruct Hq; reflexivity|destruct Hq; reflexivity].
      cbn [fmap option_fmap option_map] in *.
      destruct (fixed (Text c)) as [c'|e'] eqn:Efix.
      * assert (Hc : c' <> c) by congruence.
        cbn [visit_lines]. rewrite (fixed_wrap_call _ _ Efix Hc). left. reflexivity.
      * apply fixed_readable in Efix. discriminate Efix.
Qed.

Lemma elem_of_modified_files d d' q :
  q ∈ modified_files d d' <-> d !! q <> d' !! q.
Proof.
  unfold modified_files. rewrite elem_of_filter, elem_of_union, !elem_of_dom.
  split; [intros [H _]; exact H|]. intros H. split; [exact H|].
  destruct (d !! q) eqn:E1; [left; eauto|].
  destruct (d' !! q) eqn:E2; [right; eauto|]. congruence.
Qed.

Lemma fmap_fixed_idem (o : option disk_file) :
  fixed <$> (fixed <$> o) = fixed <$> o.
Proof.
  destruct o as [f|]; [|reflexivity].
  cbn [fmap option_fmap option_map]. rewrite fixed_idem. reflexivity.
Qed.

(** With every existing target readable, the loop runs to its end: each
    target is left as [fixed] leaves it, nothing else changes, every
    missing target is announced, and the count is the number of files
    that differ from before. *)
Lemma fix_loop_total files :
  forall n w, all_readable (disk w) files ->
  exists w',
    fix_loop files n w
      = (Ret (n + size (modified_files (disk w) (disk w'))), w') /\
    (forall q, In q files -> disk w' !! q = fixed <$> disk w !! q) /\
    (forall q, ~ In q files -> disk w' !! q = disk w !! q) /\
    (forall m, In m (console w) -> In m (console w')) /\
    (forall q, In q files -> disk w !! q = None -> In (NotFound q) (console w')).
Proof.
  induction files as [|p files IH]; intros n w Hr.
  - exists w. cbn [fix_loop]. unfold ret.
    assert (E : modified_files (disk w) (disk w) = ∅).
    { apply set_eq. intros q. rewrite elem_of_modified_files.
      split; [intros H; destruct H; reflexivity|intros H; destruct (not_elem_of_empty q H)]. }
    rewrite E, size_empty, Nat.add_0_r.
    repeat split; auto; intros q []. 
  - assert (Hrp : forall e, disk w !! p <> Some (Unreadable e)).
    { intros e. apply Hr. left. reflexivity. }
    rewrite (fix_loop_visit_ok _ _ _ _ Hrp).
    set (wm := World (alter fixed p (disk w))
                     (console w ++ visit_lines p (disk w !! p))).
    set (n' := if bool_decide (fixed <$> disk w !! p <> disk w !! p) then S n else n).
    destruct (IH n' wm) as [w' [E [Hin [Hout [Hmono Hnf]]]]].
    { intros q e Hq. cbn [wm disk]. rewrite alter_fixed_lookup.
      destruct (decide (p = q)) as [<-|]; [|apply Hr; right; exact Hq].
      intros He. destruct (disk w !! p) as [f|] eqn:Ef; [|discriminate].
      injection He as He. apply fixed_readable in He. subst f.
      destruct (Hrp e). reflexivity. }
    assert (Hfinal_p : disk w' !! p = fixed <$> disk w !! p).
    { destruct (decide (p ∈ files)) as [Hp|Hp]; rewrite list_elem_of_In in Hp.
      - rewrite (Hin p Hp). cbn [wm disk].
        rewrite alter_fixed_lookup, decide_True by reflexivity.
        apply fmap_fixed_idem.
      - rewrite (Hout p Hp). cbn [wm disk].
        rewrite alter_fixed_lookup, decide_True by reflexivity. reflexivity. }
    assert (Hother : forall q, p <> q -> disk wm !! q = disk w !! q).
    { intros q Hq. cbn [wm disk]. rewrite alter_fixed_lookup, decide_False by exact Hq.
      reflexivity. }
    exists w'. split; [|split; [|split; [|split]]].
    + rewrite E. do 2 f_equal. unfold n'. case_bool_decide as Hb.
      * assert (Hset : modified_files (disk w) (disk w')
                       = {[p]} ∪ modified_files (disk wm) (disk w')).
        { apply set_eq. intros q.
          rewrite elem_of_union, elem_of_singleton, !elem_of_modified_files.
          destruct (decide (p = q)) as [<-|Hq].
          - rewrite Hfinal_p. split; [auto|]. intros _ H. apply Hb. symmetry. exact H.
          - rewrite (Hother q Hq). split; [auto|]. intros [H|H]; [congruence|exact H]. }
        rewrite Hset, size_union, size_singleton; [lia|].
        apply disjoint_singleton_l. rewrite elem_of_modified_files.
        intros H. apply H. rewrite Hfinal_p. cbn [wm disk].
        rewrite alter_fixed_lookup, decide_True by reflexivity. reflexivity.
      * assert (Hsame : fixed <$> disk w !! p = disk w !! p).
        { destruct (decide (fixed <$> disk w !! p = disk w !! p)); [assumption|contradiction]. }
        cbn [wm disk]. rewrite (alter_fixed_same _ _ Hsame). reflexivity.
    + intros q [<-|Hq]; [exact Hfinal_p|].
      rewrite (Hin q Hq). destruct (decide (p = q)) as [<-|Hne].
      * cbn [wm disk]. rewrite alter_fixed_lookup, decide_True by reflexivity.
        apply fmap_fixed_idem.
      * rewrite (Hother q Hne). reflexivity.
    + intros q Hq. rewrite (Hout q) by (intros H; apply Hq; right; exact H).
      apply Hother. intros ->. apply Hq. left. reflexivity.
    + intros m Hm. apply Hmono. cbn [wm console]. apply in_or_app. left. exact Hm.
    + intros q [<-|Hq] Hnone.
      * apply Hmono. cbn [wm console]. apply in_or_app. right.
        rewrite Hnone. left. reflexivity.
      * apply (Hnf q Hq). cbn [wm disk]. rewrite alter_fixed_lookup.
        destruct (decide (p = q)); [rewrite Hnone; reflexivity|exact Hnone].
Qed.

Lemma main_on_run files w :
  main_on files w =
  match fix_loop files 0 (World (disk w) (console w ++ [FixBanner])) with
  | (Ret n, w') => (Ret tt, World (disk w') (console w' ++ [FixSummary n]))
  | (Raise e, w') => (Raise e, w')
  end.
Proof.
  unfold main_on, bind, print. cbn [disk console].
  destruct (fix_loop files 0 _) as [[n|e] w']; reflexivity.
Qed.

(** A missing target is announced and the loop goes on with the rest,
    the disk and the count as they were. *)
Lemma fix_loop_missing p files n w :
  disk w !! p = None ->
  fix_loop (p :: files) n w
  = fix_loop files n (World (disk w) (console w ++ [NotFound p])).
Proof.
  intros H. rewrite fix_loop_visit_ok by (rewrite H; discriminate).
  rewrite H. cbn [fmap option_fmap option_map visit_lines].
  rewrite bool_decide_eq_false_2 by (intros Hne; apply Hne; reflexivity).
  rewrite alter_id' by exact H. reflexivity.
Qed.

(** The loop over two lists in a row is the loop over the first, then,
    unless it raised, the loop over the second. *)
Lemma fix_loop_app files1 files2 : forall n w,
  fix_loop (files1 ++ files2) n w =
  match fix_loop files1 n w with
  | (Ret n', w') => fix_loop files2 n' w'
  | (Raise e, w') => (Raise e, w')
  end.
Proof.
  induction files1 as [|p files1 IH]; intros n w; [reflexivity|].
  rewrite <- app_comm_cons.
  destruct (readable_cases (disk w !! p)) as [[e He]|Hr].
  - rewrite !(fix_loop_visit_raise _ _ _ _ _ He). reflexivity.
  - rewrite !(fix_loop_visit_ok _ _ _ _ Hr). apply IH.
Qed.

(** A loop that runs to its end has met no unreadable target. *)
Lemma fix_loop_returns_readable files : forall n w n' w',
  fix_loop files n w = (Ret n', w') -> all_readable (disk w) files.
Proof.
  induction files as [|p files IH]; intros n w n' w' H q e Hq; [destruct Hq|].
  destruct (readable_cases (disk w !! p)) as [[e' He]|Hr].
  - rewrite (fix_loop_visit_raise _ _ _ _ _ He) in H. discriminate H.
  - rewrite (fix_loop_visit_ok _ _ _ _ Hr) in H.
    destruct Hq as [<-|Hq]; [apply Hr|].
    intros He. apply (IH _ _ _ _ H q e Hq). cbn [disk].
    rewrite alter_fixed_lookup, He. destruct (decide (p = q)); reflexivity.
Qed.

End fixer_loop.

(** ** The scanner *)

Section scanner_loop.

Implicit Types (w : world) (p q : string) (c : text)
  (d : gmap string disk_file) (js_files : list string).

Lemma search_stylesheet_pattern c :
  search stylesheet_pattern c = contains wrap_call c.
Proof. apply search_literal. Qed.

(** One file of the scan. *)
Lemma scan_file_run p acc w :
  is_Some (disk w !! p) ->
  scan_file p acc w =
  (Ret (acc ++ scan_records p (disk w !! p)),
   World (disk w) (console w ++ scan_lines p (disk w !! p))).
Proof.
  intros [f Hf]. destruct w as [d out]. cbn [disk console] in *.
  unfold scan_file, try_except, bind at 1, read_text. cbn [disk console].
  rewrite Hf. destruct f as [c|e].
  - cbn [scan_records scan_lines].
    destruct (findall style_pattern c) as [|v vs].
    + unfold ret. rewrite !app_nil_r. reflexivity.
    + rewrite search_stylesheet_pattern.
      destruct (contains wrap_call c); cbn [negb];
        unfold bind, print, ret; cbn [disk console];
        rewrite ?app_nil_r; reflexivity.
  - cbn [scan_records scan_lines]. unfold bind, print, ret. cbn [disk console].
    rewrite app_nil_r. reflexivity.
Qed.

(** The scan never raises and never writes: its records and its lines
    are those of the enumerated files, one file after the other. *)
Lemma scan_loop_run js_files :
  forall acc w,
  scan_loop js_files acc w =
  (Ret (acc ++ flat_map (fun p => scan_records p (disk w !! p)) js_files),
   World (disk w)
         (console w ++ flat_map (fun p => scan_lines p (disk w !! p)) js_files)).
Proof.
  induction js_files as [|p js_files IH]; intros acc w.
  - cbn [scan_loop flat_map]. unfold ret. rewrite !app_nil_r.
    destruct w; reflexivity.
  - cbn [scan_loop flat_map]. unfold bind at 1, path_exists.
    destruct (disk w !! p) as [f|] eqn:Ef.
    + rewrite bool_decide_eq_true_2 by eauto.
      unfold bind at 1. rewrite scan_file_run by (rewrite Ef; eauto).
      rewrite IH. cbn [disk console]. rewrite Ef, <- !app_assoc. reflexivity.
    + rewrite bool_decide_eq_false_2 by (intros [x Hx]; discriminate Hx).
      rewrite IH. reflexivity.
Qed.

Lemma scan_lines_path p f m :
  In m (scan_lines p f) -> line_path m = Some p.
Proof.
  destruct f as [[c|e]|]; cbn [scan_lines]; [|intros [<-|[]]; reflexivity|intros []].
  destruct (findall _ _); [intros []|].
  destruct (contains _ _); intros [<-|[]]; reflexivity.
Qed.

Lemma scan_records_file p f r :
  In r (scan_records p f) -> file r = p.
Proof.
  destruct f as [[c|e]|]; cbn [scan_records]; try (intros []).
  destruct (findall _ _); [intros []|].
  destruct (contains _ _); [intros []|intros [<-|[]]; reflexivity].
Qed.

Lemma filter_scan_records q f p :
  filter (fun r => file r = p) (scan_records q f)
  = if decide (q = p) then scan_records q f else [].
Proof.
  assert (H : forall vars,
            filter (fun r => file r = p) [Record_ q vars]
            = if decide (q = p) then [Record_ q vars] else []).
  { intros vars. rewrite filter_cons. cbn [file].
    destruct (decide (q = p)); reflexivity. }
  destruct f as [[c|e]|]; cbn [scan_records];
    try (destruct (decide (q = p)); reflexivity).
  destruct (findall _ _); [destruct (decide (q = p)); reflexivity|].
  destruct (contains _ _); [destruct (decide (q = p)); reflexivity|apply H].
Qed.

(** Without duplicates in the enumeration, the records of a path are
    those of its one visit. *)
Lemma scan_records_once js_files d p :
  List.NoDup js_files -> In p js_files ->
  filter (fun r => file r = p)
         (flat_map (fun q => scan_records q (d !! q)) js_files)
  = scan_records p (d !! p).
Proof.
  assert (Hnone : forall l, ~ In p l ->
            filter (fun r => file r = p)
                   (flat_map (fun q => scan_records q (d !! q)) l) = []).
  { induction l as [|q l IH]; intros Hp; [reflexivity|].
    cbn [flat_map]. rewrite filter_app, IH by (intros H; apply Hp; right; exact H).
    rewrite app_nil_r, filter_scan_records.
    rewrite decide_False; [reflexivity|].
    intros ->. apply Hp. left. reflexivity. }
  induction js_files as [|q l IH]; intros Hnd Hin; [destruct Hin|].
  apply List.NoDup_cons_iff in Hnd as [Hq Hnd].
  cbn [flat_map]. rewrite filter_app, filter_scan_records.
  destruct Hin as [->|Hin].
  - rewrite decide_True by reflexivity. rewrite (Hnone l Hq), app_nil_r. reflexivity.
  - rewrite decide_False by (intros ->; contradiction).
    apply IH; assumption.
Qed.

Lemma scan_lines_about js_files d m p :
  In m (flat_map (fun q => scan_lines q (d !! q)) js_files) ->
  line_path m = Some p ->
  In p js_files /\ In m (scan_lines p (d !! p)).
Proof.
  intros Hm Hp. apply in_flat_map in Hm as [q [Hq Hm]].
  pose proof (scan_lines_path _ _ _ Hm) as Hq'. rewrite Hp in Hq'.
  injection Hq' as ->. split; assumption.
Qed.

Lemma scan_records_of js_files d r :
  In r (flat_map (fun q => scan_records q (d !! q)) js_files) ->
  In (file r) js_files /\ In r (scan_records (file r) (d !! file r)).
Proof.
  intros Hr. apply in_flat_map in Hr as [q [Hq Hr]].
  pose proof (scan_records_file _ _ _ Hr) as ->. split; assumption.
Qed.

Lemma find_unwrapped_styles_run stdout d :
  find_unwrapped_styles stdout (World d [])
  = (Ret (flat_map (fun p => scan_records p (d !! p)) (js_files_of stdout)),
     World d (flat_map (fun p => scan_lines p (d !! p)) (js_files_of stdout))).
Proof. unfold find_unwrapped_styles. rewrite scan_loop_run. reflexivity. Qed.

End scanner_loop.

(** ** The fixer: the import step

    Three of the four branches of the import step: a content that holds
    the symbol, or has neither import, comes back unchanged, and a
    framework import without an import from the target module gets the
    new import line after each of its occurrences. *)
Lemma add_import_symbol_present (c : text) :
  contains (lit "StyleSheet") c = true -> add_stylesheet_import c = c.
Proof. intros H. unfold add_stylesheet_import. rewrite H. reflexivity. Qed.

Lemma add_import_no_anchor (c : text) :
  contains (lit "StyleSheet") c = false ->
  search rn_import_pattern c = false ->
  search react_import_pattern c = false ->
  add_stylesheet_import c = c.
Proof.
  intros H1 H2 H3. unfold add_stylesheet_import. rewrite H1, H2, H3. reflexivity.
Qed.

Lemma add_import_after_react (c : text) :
  contains (lit "StyleSheet") c = false ->
  search rn_import_pattern c = false ->
  search react_import_pattern c = true ->
  add_stylesheet_import c =
  sub react_import_pattern
      [Group1; Plain [newline];
       Plain (lit "import { StyleSheet } from 'react-native';")] c.
Proof.
  intros H1 H2 H3. unfold add_stylesheet_import. rewrite H1, H2, H3. reflexivity.
Qed.

(** ** The claims *)

(** C1, at the usual import "import { View } from 'react-native';":
    the symbol is absent and an import from the target module is
    present, yet [fix_stylesheet_imports] does not add [StyleSheet] to
    the imported set.  The first substitution puts a closing brace
    before [from], after which the second pattern, which allows a single
    closing brace, no longer matches; the result carries the extra brace
    and still lacks the symbol. *)
Theorem fix_imports_existing_import :
  contains (lit "StyleSheet") rn_import_source = false /\
  search rn_import_pattern rn_import_source = true /\
  add_stylesheet_import rn_import_source = rn_import_result /\
  contains (lit "StyleSheet") rn_import_result = false /\
  fix_stylesheet_imports "A.js" (World {["A.js" := Text rn_import_source]} [])
  = (Ret rn_import_result, World {["A.js" := Text rn_import_source]} []) /\
  contains (lit "StyleSheet") rn_multiline_source = false /\
  add_stylesheet_import rn_multiline_source = rn_multiline_result.
Proof. repeat split; vm_compute; reflexivity. Qed.

(** C5: the scenario of the specification, with and without the
    framework import.  The import line lands after the framework import
    and the declaration is wrapped and closed; the file is written and
    the modification reported. *)
Theorem fixer_scenario :
  add_stylesheet_import scenario_source
  = lit "import React from 'react';
import { StyleSheet } from 'react-native';
const styles = {
  foo: 1,
};" /\
  wrap_styles_with_stylesheet "A.js"
    (World {["A.js" := Text scenario_source]} [])
  = (Ret true,
     World {["A.js" := Text scenario_fixed]} [Modified "A.js" [lit "styles"]]) /\
  wrap_styles_with_stylesheet "A.js"
    (World {["A.js" := Text bare_source]} [])
  = (Ret true,
     World {["A.js" := Text bare_fixed]} [Modified "A.js" [lit "styles"]]).
Proof. repeat split; vm_compute; reflexivity. Qed.

(** C2, as the code has it.  For a rewritten declaration that begins
    line [i], the scan stops at the closing point: the first line, from
    line [i] on, that brings the running brace depth back to zero and
    holds a closing brace.  When that line, stripped, is exactly the
    bare terminator, it is rewritten, its white space kept, to close
    the call; when it is anything else, or when no line closes the
    declaration, no line is rewritten.  Either way the function prints
    only its usual line and raises nothing. *)
Theorem close_decl_closing_point (lines : list text) (i : nat) (line : text) :
  lines !! i = Some line ->
  matches wrapped_pattern (strip line) = true ->
  (forall j l, closing_point lines i j -> lines !! j = Some l ->
     if bool_decide (strip l = lit "};")
     then exists pre post,
            l = pre ++ lit "};" ++ post /\
            forallb is_space pre = true /\ forallb is_space post = true /\
            close_decl lines i = <[j := pre ++ lit "});" ++ post]> lines
     else close_decl lines i = lines) /\
  ((forall j, ~ closes lines i j) -> close_decl lines i = lines) /\
  (forall p w c, disk w !! p = Some (Text c) ->
     exists b w', wrap_styles_with_stylesheet p w = (Ret b, w') /\
                  console w' = console w ++ visit_lines p (Some (Text c))).
Proof.
  intros Hi Hm. unfold close_decl. rewrite Hi, Hm. split; [|split].
  - intros j l [[Hij [l' [Hl' [Hd Hc]]]] Hfirst] Hl.
    rewrite Hl in Hl'. injection Hl' as <-.
    assert (Hk : drop i lines !! (j - i) = Some l).
    { rewrite lookup_drop. replace (i + (j - i)) with j by lia. exact Hl. }
    assert (Hscan : close_scan (drop i lines) 0 =
              if bool_decide (strip l = lit "};")
              then <[j - i := rewrite_line l]> (drop i lines)
              else drop i lines).
    { apply close_scan_first; [exact Hk| |exact Hc|].
      - unfold depth in Hd. replace (S (j - i)) with (S j - i) by lia. lia.
      - intros k' l' Hlt Hl' H. apply (closes_drop _ _ _ _ Hl') in H.
        apply (Hfirst (i + k')); [lia|exact H]. }
    rewrite Hscan. case_bool_decide as Hb.
    + destruct (strip_decompose l) as [pre [post [E [Hp Hq]]]].
      rewrite Hb in E. exists pre, post. repeat split; try assumption.
      unfold rewrite_line. rewrite E at 1. rewrite replace_bare by assumption.
      apply lookup_lt_Some in Hi.
      transitivity (<[j := pre ++ lit "});" ++ post]> (take i lines ++ drop i lines));
        [|rewrite take_drop; reflexivity].
      assert (Hlen : length (take i lines) = i) by (apply length_take_le; lia).
      assert (Hle : length (take i lines) <= j) by lia.
      rewrite (insert_app_r_alt _ _ _ _ Hle). do 2 f_equal.
      apply (f_equal (Nat.sub j)). symmetry. exact Hlen.
    + apply take_drop.
  - intros Hno. rewrite close_scan_none; [apply take_drop|].
    intros k l Hl H. apply (closes_drop _ _ _ _ Hl) in H. exact (Hno _ H).
  - intros p w c Hc. rewrite wrap_styles_run, Hc. cbn [visit_lines].
    destruct (contains wrap_call c); [eexists _, _; split; reflexivity|].
    destruct (findall _ _); eexists _, _; split; try reflexivity.
    cbn [console]. rewrite app_nil_r. reflexivity.
Qed.

(** A declaration with a nested object, closed by an indented bare
    terminator with trailing blanks. *)
Lemma close_decl_closing_point_witness :
  nested_lines !! 0 = Some (lit "const styles = StyleSheet.create({") /\
  matches wrapped_pattern (strip (lit "const styles = StyleSheet.create({")) = true /\
  closing_point nested_lines 0 2 /\
  (exists pre post,
     lit "  };  " = pre ++ lit "};" ++ post /\
     forallb is_space pre = true /\ forallb is_space post = true /\
     close_decl nested_lines 0 = <[2 := pre ++ lit "});" ++ post]> nested_lines) /\
  close_decl nested_lines 0 = <[2 := lit "  });  "]> nested_lines.
Proof.
  assert (Hcp : closing_point nested_lines 0 2).
  { split.
    - split; [lia|]. exists (lit "  };  "). repeat split.
    - intros k Hk [_ [l [Hl [Hd Hc]]]].
      destruct k as [|[|k]]; [| |lia]; vm_compute in Hd; discriminate Hd. }
  split; [reflexivity|]. split; [reflexivity|]. split; [exact Hcp|].
  split; [|vm_compute; reflexivity].
  pose proof (close_decl_closing_point nested_lines 0 _ eq_refl eq_refl) as [H _].
  specialize (H 2 (lit "  };  ") Hcp eq_refl).
  rewrite bool_decide_eq_true_2 in H by reflexivity.
  exact H.
Defined.

(** C2 as stated fails on a closing line with a trailing comment: line
    4 is the first line at depth zero that is a bare terminator, and
    the code, which stopped at line 2, leaves it as it is. *)
Lemma close_decl_first_bare_counterexample :
  split newline (sub style_pattern style_replacement trailing_comment_source)
    = trailing_comment_lines /\
  matches wrapped_pattern (strip (lit "const styles = StyleSheet.create({")) = true /\
  bare_closing_point trailing_comment_lines 0 4 /\
  close_decl trailing_comment_lines 0 = trailing_comment_lines /\
  close_all trailing_comment_lines !! 4 = Some (lit "};").
Proof.
  split; [vm_compute; reflexivity|]. split; [reflexivity|].
  split; [|split; vm_compute; reflexivity].
  split.
  - split; [lia|]. exists (lit "};"). repeat split.
  - intros k l Hk Hl [Hd Hs].
    destruct k as [|[|[|[|k]]]]; [| | | |lia];
      try (vm_compute in Hd; discriminate Hd).
    injection Hl as <-. vm_compute in Hs. discriminate Hs.
Qed.

(** C3: for a readable enumerated file, the scanner prints a line
    about it exactly when the style pattern matches, and the line shows
    the compliance status with all matched names; the file is in the
    returned list exactly when the pattern matches and the wrapping call
    occurs nowhere in it; its record carries all matched names, and a
    file enumerated once has at most one record. *)
Theorem scanner_classification
    (stdout : text) (d : gmap string disk_file) (p : string) (c : text) :
  In p (js_files_of stdout) ->
  d !! p = Some (Text c) ->
  exists recs out,
    find_unwrapped_styles stdout (World d []) = (Ret recs, World d out) /\
    ((exists m, In m out /\ line_path m = Some p)
       <-> findall style_pattern c <> []) /\
    (forall m, In m out -> line_path m = Some p ->
       m = (if contains wrap_call c then HasStyleSheet else NoStyleSheet)
             p (findall style_pattern c)) /\
    ((exists r, In r recs /\ file r = p)
       <-> findall style_pattern c <> [] /\ contains wrap_call c = false) /\
    (forall r, In r recs -> file r = p ->
       r = Record_ p (findall style_pattern c)) /\
    (List.NoDup (js_files_of stdout) ->
       length (filter (fun r => file r = p) recs) <= 1).
Proof.
  intros Hp Hc. eexists _, _. split; [apply find_unwrapped_styles_run|].
  assert (Hlines : forall m, In m (scan_lines p (d !! p)) ->
            findall style_pattern c <> [] /\
            m = (if contains wrap_call c then HasStyleSheet else NoStyleSheet)
                  p (findall style_pattern c)).
  { intros m. rewrite Hc. cbn [scan_lines].
    destruct (findall style_pattern c) as [|v vs]; [intros []|].
    destruct (contains wrap_call c); intros [<-|[]]; split; (discriminate || reflexivity). }
  assert (Hrecs : forall r, In r (scan_records p (d !! p)) ->
            findall style_pattern c <> [] /\ contains wrap_call c = false /\
            r = Record_ p (findall style_pattern c)).
  { intros r. rewrite Hc. cbn [scan_records].
    destruct (findall style_pattern c) as [|v vs]; [intros []|].
    destruct (contains wrap_call c); [intros []|].
    intros [<-|[]]. repeat split. discriminate. }
  split; [|split; [|split; [|split]]].
  - split.
    + intros [m [Hm Hpath]]. apply scan_lines_about with (p := p) in Hm as [_ Hm];
        [|exact Hpath]. apply Hlines in Hm. apply Hm.
    + intros Hf.
      exists ((if contains wrap_call c then HasStyleSheet else NoStyleSheet)
                p (findall style_pattern c)).
      split; [|destruct (contains wrap_call c); reflexivity].
      apply in_flat_map. exists p. split; [exact Hp|].
      rewrite Hc. cbn [scan_lines].
      destruct (findall style_pattern c) as [|v vs]; [congruence|].
      destruct (contains wrap_call c); left; reflexivity.
  - intros m Hm Hpath. apply scan_lines_about with (p := p) in Hm as [_ Hm];
      [|exact Hpath]. apply Hlines in Hm. apply Hm.
  - split.
    + intros [r [Hr Hfile]]. apply scan_records_of in Hr as [_ Hr].
      rewrite Hfile in Hr. apply Hrecs in Hr. split; apply Hr.
    + intros [Hf Hw]. exists (Record_ p (findall style_pattern c)).
      split; [|reflexivity]. apply in_flat_map. exists p. split; [exact Hp|].
      rewrite Hc. cbn [scan_records]. rewrite Hw.
      destruct (findall style_pattern c); [congruence|]. left. reflexivity.
  - intros r Hr Hfile. apply scan_records_of in Hr as [_ Hr].
    rewrite Hfile in Hr. apply Hrecs in Hr. apply Hr.
  - intros Hnd. rewrite (scan_records_once _ d p Hnd Hp), Hc. cbn [scan_records].
    destruct (findall style_pattern c); [cbn; lia|].
    destruct (contains wrap_call c); cbn; lia.
Qed.

(** A file with two style declarations and no wrapping call, scanned
    next to a compliant and an unreadable file. *)
Lemma scanner_classification_witness :
  In "src/tandapay/A.js" (js_files_of find_output) /\
  project_disk !! "src/tandapay/A.js" = Some (Text two_styles_source) /\
  find_unwrapped_styles find_output (World project_disk [])
  = (Ret [Record_ "src/tandapay/A.js" [lit "styles"; lit "headerStyle"]],
     World project_disk
       [NoStyleSheet "src/tandapay/A.js" [lit "styles"; lit "headerStyle"];
        HasStyleSheet "src/tandapay/B.js" [lit "rowStyle"];
        ReadError "src/tandapay/C.js" "PermissionError"]) /\
  exists recs out,
    find_unwrapped_styles find_output (World project_disk [])
      = (Ret recs, World project_disk out) /\
    ((exists m, In m out /\ line_path m = Some "src/tandapay/A.js")
       <-> findall style_pattern two_styles_source <> []) /\
    (forall m, In m out -> line_path m = Some "src/tandapay/A.js" ->
       m = (if contains wrap_call two_styles_source
            then HasStyleSheet else NoStyleSheet)
             "src/tandapay/A.js" (findall style_pattern two_styles_source)) /\
    ((exists r, In r recs /\ file r = "src/tandapay/A.js")
       <-> findall style_pattern two_styles_source <> [] /\
           contains wrap_call two_styles_source = false) /\
    (forall r, In r recs -> file r = "src/tandapay/A.js" ->
       r = Record_ "src/tandapay/A.js" (findall style_pattern two_styles_source)) /\
    (List.NoDup (js_files_of find_output) ->
       length (filter (fun r => file r = "src/tandapay/A.js") recs) <= 1).
Proof.
  assert (Hin : In "src/tandapay/A.js" (js_files_of find_output)).
  { vm_compute. left. reflexivity. }
  split; [exact Hin|]. split; [vm_compute; reflexivity|].
  split; [vm_compute; reflexivity|].
  apply (scanner_classification find_output project_disk
           "src/tandapay/A.js" two_styles_source Hin).
  vm_compute. reflexivity.
Defined.

(** C7, as the code has it.  The scan never raises and writes nothing.
    Its output is the lines of the enumerated files taken one after the
    other, so no file keeps a later one from being scanned.  A file
    that exists and cannot be read is reported by one warning and gives
    no record; a file that is gone when its turn comes is passed over
    without any line. *)
Theorem scanner_unreadable_files (stdout : text) (d : gmap string disk_file) :
  exists recs out,
    find_unwrapped_styles stdout (World d []) = (Ret recs, World d out) /\
    out = flat_map (fun p => scan_lines p (d !! p)) (js_files_of stdout) /\
    recs = flat_map (fun p => scan_records p (d !! p)) (js_files_of stdout) /\
    (forall p e, In p (js_files_of stdout) -> d !! p = Some (Unreadable e) ->
       In (ReadError p e) out /\
       (forall m, In m out -> line_path m = Some p -> m = ReadError p e) /\
       (forall r, In r recs -> file r <> p)) /\
    (forall p, In p (js_files_of stdout) -> d !! p = None ->
       (forall m, In m out -> line_path m <> Some p) /\
       (forall r, In r recs -> file r <> p)).
Proof.
  eexists _, _. split; [apply find_unwrapped_styles_run|].
  split; [reflexivity|]. split; [reflexivity|]. split.
  - intros p e Hp He. split; [|split].
    + apply in_flat_map. exists p. split; [exact Hp|]. rewrite He. left. reflexivity.
    + intros m Hm Hpath. apply scan_lines_about with (p := p) in Hm as [_ Hm];
        [|exact Hpath]. rewrite He in Hm. destruct Hm as [<-|[]]. reflexivity.
    + intros r Hr Hfile. apply scan_records_of in Hr as [_ Hr].
      rewrite Hfile, He in Hr. destruct Hr.
  - intros p Hp Hnone. split.
    + intros m Hm Hpath. apply scan_lines_about with (p := p) in Hm as [_ Hm];
        [|exact Hpath]. rewrite Hnone in Hm. destruct Hm.
    + intros r Hr Hfile. apply scan_records_of in Hr as [_ Hr].
      rewrite Hfile, Hnone in Hr. destruct Hr.
Qed.

(** C7 as stated fails for a file that vanished after it was
    enumerated: the existence test passes it over and nothing at all is
    printed, where the claim has a warning. *)
Lemma scanner_vanished_file_silent :
  js_files_of (lit "src/tandapay/Gone.js
") = ["src/tandapay/Gone.js"] /\
  find_unwrapped_styles (lit "src/tandapay/Gone.js
") (World ∅ [])
  = (Ret [], World ∅ []).
Proof. split; vm_compute; reflexivity. Qed.

(** C4: a second run of the fixer over the same targets, on the disk
    the first run left, changes no file; it ends as the first run ended
    and, for every file the first run changed, prints that the file
    already uses the wrapping call.  When it runs to its end, it
    reports no file fixed. *)
Theorem fixer_idempotent (files : list string) (d : gmap string disk_file) :
  exists r w1 w2,
    main_on files (World d []) = (r, w1) /\
    main_on files (World (disk w1) []) = (r, w2) /\
    disk w2 = disk w1 /\
    (forall p, disk w1 !! p <> d !! p -> In (AlreadyUses p) (console w2)) /\
    (r = Ret tt -> In (FixSummary 0) (console w2)).
Proof.
  rewrite main_on_run. cbn [disk console app].
  destruct (fix_loop files 0 (World d [FixBanner])) as [r1 w1] eqn:E1.
  destruct (fix_loop_again files _ _ _ _ E1 0 (World (disk w1) [FixBanner]))
    as [r2 [out [E2 [Hres [_ Hall]]]]]; [reflexivity|].
  cbn [disk] in E2, Hall.
  destruct r1 as [n1|e].
  - subst r2. eexists (Ret tt), _, _. split; [reflexivity|].
    cbn [disk]. rewrite main_on_run. cbn [disk console app]. rewrite E2.
    split; [reflexivity|]. cbn [disk console]. split; [reflexivity|]. split.
    + intros p Hp. apply in_or_app. left. apply Hall. exact Hp.
    + intros _. apply in_or_app. right. left. reflexivity.
  - subst r2. eexists (Raise e), _, _. split; [reflexivity|].
    rewrite main_on_run. cbn [disk console app]. rewrite E2.
    split; [reflexivity|]. cbn [disk console]. split; [reflexivity|]. split.
    + intros p Hp. apply Hall. exact Hp.
    + discriminate.
Qed.

(** C6, as the code has it.  A readable target is overwritten exactly
    when the wrapping step applies to it, that is, when the wrapping
    call occurs nowhere in the file and the style pattern matches its
    content after the import step; this is also exactly when the
    function returns [True].  A change made by the import step alone is
    not written.  No other file is touched.  A file that holds the
    wrapping call is left as it is and reported as already wrapped, and
    the loop of [main] goes on with the count unchanged. *)
Theorem fixer_writes_iff_wrapped (p : string) (w : world) (c : text) :
  disk w !! p = Some (Text c) ->
  exists b w',
    wrap_styles_with_stylesheet p w = (Ret b, w') /\
    (disk w' !! p <> Some (Text c) <->
       contains wrap_call c = false /\
       findall style_pattern (add_stylesheet_import c) <> []) /\
    (b = true <-> disk w' !! p <> Some (Text c)) /\
    (b = true ->
       disk w' !! p = Some (Text (wrap_content (add_stylesheet_import c)))) /\
    (b = false -> disk w' = disk w) /\
    (forall q, q <> p -> disk w' !! q = disk w !! q) /\
    (contains wrap_call c = true ->
       b = false /\
       w' = World (disk w) (console w ++ [AlreadyUses p]) /\
       forall files n, fix_loop (p :: files) n w = fix_loop files n w').
Proof.
  intros Hc. rewrite wrap_styles_run, Hc.
  destruct (contains wrap_call c) eqn:Ec.
  - eexists _, _. split; [reflexivity|]. cbn [disk].
    split; [split; [intros H; destruct (H Hc)|intros [H _]; discriminate H]|].
    split; [split; [discriminate|intros H; destruct (H Hc)]|].
    split; [discriminate|].
    split; [reflexivity|]. split; [reflexivity|].
    intros _. split; [reflexivity|]. split; [reflexivity|].
    intros files n. rewrite fix_loop_visit_ok by (rewrite Hc; discriminate).
    rewrite Hc. cbn [fmap option_fmap option_map visit_lines fixed]. rewrite Ec.
    rewrite bool_decide_eq_false_2 by (intros H; apply H; reflexivity).
    rewrite alter_fixed_same; [reflexivity|].
    rewrite Hc. cbn [fmap option_fmap option_map fixed]. rewrite Ec. reflexivity.
  - destruct (findall style_pattern (add_stylesheet_import c)) as [|v vs] eqn:Ef.
    + eexists _, _. split; [reflexivity|].
      split; [split; [intros H; destruct (H Hc)|intros [_ H]; destruct H; reflexivity]|].
      split; [split; [discriminate|intros H; destruct (H Hc)]|].
      split; [discriminate|].
      split; [reflexivity|]. split; [reflexivity|]. discriminate.
    + eexists _, _. split; [reflexivity|]. cbn [disk].
      assert (Hne : <[p := Text (wrap_content (add_stylesheet_import c))]> (disk w) !! p
                    <> Some (Text c)).
      { rewrite lookup_insert_eq. intros [= H].
        pose proof (wrap_content_wrap_call (add_stylesheet_import c)) as Hw.
        rewrite H, Ec, Ef in Hw. discriminate Hw. discriminate. }
      split; [split; [intros _; split; [reflexivity|discriminate]|intros _; exact Hne]|].
      split; [split; [intros _; exact Hne|reflexivity]|].
      split; [intros _; apply lookup_insert_eq|].
      split; [discriminate|]. split; [|discriminate].
      intros q Hq. apply lookup_insert_ne. congruence.
Qed.

Lemma fixer_writes_iff_wrapped_witness :
  target_disk !! "src/tandapay/wallet/WalletSendScreen.js"
    = Some (Text scenario_source) /\
  exists b w',
    wrap_styles_with_stylesheet "src/tandapay/wallet/WalletSendScreen.js"
      (World target_disk []) = (Ret b, w') /\
    (disk w' !! "src/tandapay/wallet/WalletSendScreen.js"
       <> Some (Text scenario_source) <->
       contains wrap_call scenario_source = false /\
       findall style_pattern (add_stylesheet_import scenario_source) <> []) /\
    (b = true <->
       disk w' !! "src/tandapay/wallet/WalletSendScreen.js"
       <> Some (Text scenario_source)) /\
    (b = true ->
       disk w' !! "src/tandapay/wallet/WalletSendScreen.js"
       = Some (Text (wrap_content (add_stylesheet_import scenario_source)))) /\
    (b = false -> disk w' = disk (World target_disk [])) /\
    (forall q, q <> "src/tandapay/wallet/WalletSendScreen.js" ->
       disk w' !! q = disk (World target_disk []) !! q) /\
    (contains wrap_call scenario_source = true ->
       b = false /\
       w' = World (disk (World target_disk []))
                  (console (World target_disk []) ++
                   [AlreadyUses "src/tandapay/wallet/WalletSendScreen.js"]) /\
       forall files n,
         fix_loop ("src/tandapay/wallet/WalletSendScreen.js" :: files) n
                  (World target_disk [])
         = fix_loop files n w').
Proof.
  split; [vm_compute; reflexivity|].
  apply (fixer_writes_iff_wrapped "src/tandapay/wallet/WalletSendScreen.js"
           (World target_disk []) scenario_source).
  vm_compute. reflexivity.
Defined.

(** C6 as stated fails for a file with the framework import and no
    style declaration: the import step applies to its content, yet the
    file is not written, nothing is printed and [False] is returned. *)
Lemma import_step_alone_not_written :
  add_stylesheet_import react_only_source <> react_only_source /\
  wrap_styles_with_stylesheet "A.js"
    (World {["A.js" := Text react_only_source]} [])
  = (Ret false, World {["A.js" := Text react_only_source]} []).
Proof. split; [vm_compute; discriminate|vm_compute; reflexivity]. Qed.

(** C8, as the code has it.  Whenever the loop of [main] reaches a path
    that does not exist, it prints the warning and goes on with the
    remaining paths, the disk and the count untouched.  The loop has no
    handler: a target that exists and cannot be read ends the run there,
    so the paths after it get no warning and no summary is printed.
    When the run comes to its end, every missing target has its warning
    and is still missing, every target is left as the fixer leaves such
    a file, no other file has changed, and the last line printed is the
    summary, whose count is the number of files that differ from what
    they were. *)
Theorem main_missing_paths
    (files : list string) (d : gmap string disk_file) (w' : world) :
  main_on files (World d []) = (Ret tt, w') ->
  (forall p, In p files -> d !! p = None ->
     In (NotFound p) (console w') /\ disk w' !! p = None) /\
  (forall p, In p files -> disk w' !! p = fixed <$> d !! p) /\
  (forall p, ~ In p files -> disk w' !! p = d !! p) /\
  last (console w') = Some (FixSummary (size (modified_files d (disk w')))) /\
  (forall pre p post n w n1 w1,
     fix_loop pre n w = (Ret n1, w1) -> disk w1 !! p = None ->
     fix_loop (pre ++ p :: post) n w
     = fix_loop post n1 (World (disk w1) (console w1 ++ [NotFound p]))) /\
  (forall p rest n w e, disk w !! p = Some (Unreadable e) ->
     fix_loop (p :: rest) n w = (Raise e, w)).
Proof.
  intros H. rewrite main_on_run in H. cbn [disk console app] in H.
  destruct (fix_loop files 0 (World d [FixBanner])) as [[n|e] w1] eqn:E;
    [|discriminate H].
  injection H as <-.
  pose proof (fix_loop_returns_readable _ _ _ _ _ E) as Hr. cbn [disk] in Hr.
  destruct (fix_loop_total files 0 (World d [FixBanner]) Hr)
    as [w2 [E2 [Hin [Hout [_ Hnf]]]]].
  rewrite E in E2. injection E2 as Hn <-. cbn [disk console] in *.
  split; [|split; [exact Hin|split; [exact Hout|split; [|split]]]].
  - intros p Hp Hnone. split.
    + apply in_or_app. left. apply Hnf; assumption.
    + rewrite (Hin p Hp), Hnone. reflexivity.
  - rewrite last_snoc, Hn. reflexivity.
  - intros pre p post n0 w n1 w0 Hpre Hnone.
    rewrite fix_loop_app, Hpre. apply fix_loop_missing, Hnone.
  - intros p rest n0 w e He. apply fix_loop_visit_raise, He.
Qed.

(** The target list of the script on a disk with two of its files: one
    is fixed, one already wrapped, sixteen are missing. *)
Lemma main_missing_paths_witness :
  main (World target_disk []) = (Ret tt, snd (main (World target_disk []))) /\
  last (console (snd (main (World target_disk [])))) = Some (FixSummary 1) /\
  (forall p, In p files_to_fix -> target_disk !! p = None ->
     In (NotFound p) (console (snd (main (World target_disk [])))) /\
     disk (snd (main (World target_disk []))) !! p = None) /\
  (forall p, In p files_to_fix ->
     disk (snd (main (World target_disk []))) !! p = fixed <$> target_disk !! p) /\
  (forall p, ~ In p files_to_fix ->
     disk (snd (main (World target_disk []))) !! p = target_disk !! p) /\
  last (console (snd (main (World target_disk []))))
    = Some (FixSummary
              (size (modified_files target_disk
                       (disk (snd (main (World target_disk []))))))) /\
  (forall pre p post n w n1 w1,
     fix_loop pre n w = (Ret n1, w1) -> disk w1 !! p = None ->
     fix_loop (pre ++ p :: post) n w
     = fix_loop post n1 (World (disk w1) (console w1 ++ [NotFound p]))) /\
  (forall p rest n w e, disk w !! p = Some (Unreadable e) ->
     fix_loop (p :: rest) n w = (Raise e, w)).
Proof.
  assert (H : main_on files_to_fix (World target_disk [])
              = (Ret tt, snd (main (World target_disk [])))).
  { vm_compute. reflexivity. }
  split; [exact H|]. split; [vm_compute; reflexivity|].
  exact (main_missing_paths files_to_fix target_disk _ H).
Defined.

(** C8 as stated fails when a target that exists cannot be read: with
    the first path of the list unreadable, [main] raises at once.  The
    second path of the list does not exist and gets no warning, and no
    summary is printed. *)
Lemma main_unreadable_before_missing :
  In "src/tandapay/wallet/wallet-setup/components/WordChip.js" files_to_fix /\
  first_blocked_disk
    !! "src/tandapay/wallet/wallet-setup/components/WordChip.js" = None /\
  main (World first_blocked_disk [])
  = (Raise "PermissionError", World first_blocked_disk [FixBanner]).
Proof.
  split; [right; left; reflexivity|]. split; vm_compute; reflexivity.
Qed.

(** C9: when [wrap_styles_with_stylesheet] returns [True], the file it
    wrote holds the wrapping call.  The scanner then has no record and
    no non-compliance line for that file, whatever it enumerates, and
    the fixer, run again on any disk with that file, writes nothing and
    reports the file as already wrapped. *)
Theorem fixed_file_has_wrap_call (p : string) (w w' : world) :
  wrap_styles_with_stylesheet p w = (Ret true, w') ->
  exists c',
    disk w' !! p = Some (Text c') /\
    contains wrap_call c' = true /\
    (forall stdout, exists recs out,
       find_unwrapped_styles stdout (World (disk w') [])
         = (Ret recs, World (disk w') out) /\
       (forall r, In r recs -> file r <> p) /\
       (forall vars, ~ In (NoStyleSheet p vars) out)) /\
    (forall w2, disk w2 !! p = Some (Text c') ->
       wrap_styles_with_stylesheet p w2
       = (Ret false, World (disk w2) (console w2 ++ [AlreadyUses p]))).
Proof.
  rewrite wrap_styles_run. destruct (disk w !! p) as [[c|e]|]; try discriminate.
  destruct (contains wrap_call c) eqn:Ec; [discriminate|].
  destruct (findall style_pattern (add_stylesheet_import c)) as [|v vs] eqn:Ef;
    [discriminate|].
  intros [= <-]. cbn [disk].
  exists (wrap_content (add_stylesheet_import c)).
  assert (Hw : contains wrap_call (wrap_content (add_stylesheet_import c)) = true).
  { apply wrap_content_wrap_call. rewrite Ef. discriminate. }
  split; [apply lookup_insert_eq|]. split; [exact Hw|]. split.
  - intros stdout. eexists _, _. split; [apply find_unwrapped_styles_run|]. split.
    + intros r Hr Hfile. apply scan_records_of in Hr as [_ Hr].
      rewrite Hfile, lookup_insert_eq in Hr. cbn [scan_records] in Hr.
      rewrite Hw in Hr.
      destruct (findall style_pattern (wrap_content _)); destruct Hr.
    + intros vars Hm. apply scan_lines_about with (p := p) in Hm as [_ Hm];
        [|reflexivity].
      rewrite lookup_insert_eq in Hm. cbn [scan_lines] in Hm. rewrite Hw in Hm.
      destruct (findall style_pattern (wrap_content _)); [destruct Hm|].
      destruct Hm as [Hm|[]]. discriminate Hm.
  - intros w2 H2. rewrite wrap_styles_run, H2, Hw. reflexivity.
Qed.

Lemma fixed_file_has_wrap_call_witness :
  wrap_styles_with_stylesheet "A.js"
    (World {["A.js" := Text scenario_source]} [])
  = (Ret true,
     World {["A.js" := Text scenario_fixed]} [Modified "A.js" [lit "styles"]]) /\
  exists c',
    disk (World {["A.js" := Text scenario_fixed]} [Modified "A.js" [lit "styles"]])
      !! "A.js" = Some (Text c') /\
    contains wrap_call c' = true /\
    (forall stdout, exists recs out,
       find_unwrapped_styles stdout
         (World (disk (World {["A.js" := Text scenario_fixed]}
                             [Modified "A.js" [lit "styles"]])) [])
         = (Ret recs,
            World (disk (World {["A.js" := Text scenario_fixed]}
                               [Modified "A.js" [lit "styles"]])) out) /\
       (forall r, In r recs -> file r <> "A.js") /\
       (forall vars, ~ In (NoStyleSheet "A.js" vars) out)) /\
    (forall w2, disk w2 !! "A.js" = Some (Text c') ->
       wrap_styles_with_stylesheet "A.js" w2
       = (Ret false, World (disk w2) (console w2 ++ [AlreadyUses "A.js"]))).
Proof.
  assert (H : wrap_styles_with_stylesheet "A.js"
                (World {["A.js" := Text scenario_source]} [])
              = (Ret true,
                 World {["A.js" := Text scenario_fixed]}
                       [Modified "A.js" [lit "styles"]])).
  { vm_compute. reflexivity. }
  split; [exact H|]. exact (fixed_file_has_wrap_call _ _ _ H).
Defined.

(** C10: the two guards are substring tests.  Whatever stands before
    and after it, one occurrence of the wrapping call in the file makes
    [wrap_styles_with_stylesheet] return [False] and write nothing, and
    one occurrence of the symbol makes [fix_stylesheet_imports] return
    the content as it is. *)
Theorem guards_are_substring_tests
    (p : string) (w : world) (c pre post : text) :
  disk w !! p = Some (Text c) ->
  (c = pre ++ lit "StyleSheet.create" ++ post ->
     wrap_styles_with_stylesheet p w
     = (Ret false, World (disk w) (console w ++ [AlreadyUses p]))) /\
  (c = pre ++ lit "StyleSheet" ++ post ->
     add_stylesheet_import c = c /\
     fix_stylesheet_imports p w = (Ret c, w)).
Proof.
  intros Hc. split.
  - intros E. rewrite wrap_styles_run, Hc.
    assert (H : contains wrap_call c = true).
    { apply contains_true. exists pre, post. exact E. }
    rewrite H. reflexivity.
  - intros E.
    assert (H : contains (lit "StyleSheet") c = true).
    { apply contains_true. exists pre, post. exact E. }
    split; [apply add_import_symbol_present; exact H|].
    unfold fix_stylesheet_imports, bind, read_text, ret. rewrite Hc.
    rewrite add_import_symbol_present by exact H. reflexivity.
Qed.

(** The wrapping call named in a comment above an unwrapped
    declaration, and the symbol inside another identifier. *)
Lemma guards_are_substring_tests_witness :
  disk (World {["A.js" := Text commented_source]} []) !! "A.js"
    = Some (Text commented_source) /\
  commented_source
    = lit "// TODO: use " ++ lit "StyleSheet.create" ++ lit " here
const styles = {
  foo: 1,
};" /\
  wrap_styles_with_stylesheet "A.js" (World {["A.js" := Text commented_source]} [])
  = (Ret false, World {["A.js" := Text commented_source]} [AlreadyUses "A.js"]) /\
  disk (World {["B.js" := Text identifier_source]} []) !! "B.js"
    = Some (Text identifier_source) /\
  identifier_source
    = lit "import { View } from 'react-native';
const My" ++ lit "StyleSheet" ++ lit "Cache = {};" /\
  add_stylesheet_import identifier_source = identifier_source /\
  fix_stylesheet_imports "B.js" (World {["B.js" := Text identifier_source]} [])
  = (Ret identifier_source, World {["B.js" := Text identifier_source]} []).
Proof.
  assert (HA : disk (World {["A.js" := Text commented_source]} []) !! "A.js"
               = Some (Text commented_source)) by (vm_compute; reflexivity).
  assert (HB : disk (World {["B.js" := Text identifier_source]} []) !! "B.js"
               = Some (Text identifier_source)) by (vm_compute; reflexivity).
  split; [exact HA|]. split; [reflexivity|].
  destruct (guards_are_substring_tests "A.js" _ commented_source
              (lit "// TODO: use ") (lit " here
const styles = {
  foo: 1,
};") HA) as [H1 _].
  destruct (guards_are_substring_tests "B.js" _ identifier_source
              (lit "import { View } from 'react-native';
const My") (lit "Cache = {};") HB) as [_ H2].
  split; [exact (H1 eq_refl)|]. split; [exact HB|]. split; [reflexivity|].
  exact (H2 eq_refl).
Defined.

(** ** More on the string operations *)

Section more_text_facts.

Implicit Types (x s l pre post : text) (a b : ascii) (ls : list text).

Lemma lstrip_spaces_app pre s :
  forallb is_space pre = true -> lstrip (pre ++ s) = lstrip s.
Proof.
  induction pre as [|a pre IH]; [reflexivity|].
  cbn [forallb]. intros H. apply andb_true_iff in H as [Ha H].
  rewrite <- app_comm_cons. cbn [lstrip]. rewrite Ha. apply IH, H.
Qed.

Lemma lstrip_head a s : is_space a = false -> lstrip (a :: s) = a :: s.
Proof. intros Ha. cbn [lstrip]. rewrite Ha. reflexivity. Qed.

Lemma rstrip_spaces_app s post :
  forallb is_space post = true -> rstrip (s ++ post) = rstrip s.
Proof.
  intros H. unfold rstrip. rewrite rev_app_distr.
  rewrite lstrip_spaces_app by (rewrite forallb_rev; exact H). reflexivity.
Qed.

Lemma rstrip_last s b : is_space b = false -> rstrip (s ++ [b]) = s ++ [b].
Proof.
  intros Hb. unfold rstrip. rewrite rev_app_distr. cbn [rev app].
  rewrite lstrip_head by exact Hb.
  change (b :: rev s) with ([b] ++ rev s).
  rewrite rev_app_distr, rev_involutive. reflexivity.
Qed.

(** A text that begins and ends with something else than white space is
    what [strip] leaves of it between two runs of white space. *)
Lemma strip_sandwich pre post a s u b :
  a :: s = u ++ [b] ->
  is_space a = false -> is_space b = false ->
  forallb is_space pre = true -> forallb is_space post = true ->
  strip (pre ++ (a :: s) ++ post) = a :: s.
Proof.
  intros E Ha Hb Hp Hq. unfold strip.
  rewrite lstrip_spaces_app by exact Hp.
  rewrite <- app_comm_cons, lstrip_head by exact Ha.
  rewrite app_comm_cons, rstrip_spaces_app by exact Hq.
  rewrite E. apply rstrip_last, Hb.
Qed.

Lemma strip_blank s : forallb is_space s = true -> strip s = [].
Proof.
  intros H. unfold strip.
  rewrite <- (app_nil_r s), lstrip_spaces_app by exact H. reflexivity.
Qed.

(** *** [split] after [join] *)

Lemma split_lines_no_sep sep s :
  Forall (fun l => ~ In sep l) (split sep s).
Proof.
  induction s as [|a s IH]; cbn [split].
  - constructor; [intros []|constructor].
  - destruct (Ascii.eqb_spec a sep) as [->|Hne].
    + constructor; [intros []|exact IH].
    + destruct (split sep s) as [|l ls]; [repeat constructor; intros [H|[]]; congruence|].
      inversion IH as [|? ? Hl Hls]; subst. constructor; [|exact Hls].
      intros [H|H]; [congruence|exact (Hl H)].
Qed.

Lemma split_line_sep sep l s :
  ~ In sep l -> split sep (l ++ sep :: s) = l :: split sep s.
Proof.
  induction l as [|a l IH]; intros Hl.
  - cbn [app split]. rewrite Ascii.eqb_refl. reflexivity.
  - rewrite <- app_comm_cons. cbn [split].
    destruct (Ascii.eqb_spec a sep) as [->|Hne]; [destruct Hl; left; reflexivity|].
    rewrite IH by (intros H; apply Hl; right; exact H). reflexivity.
Qed.

Lemma split_one_line sep l : ~ In sep l -> split sep l = [l].
Proof.
  induction l as [|a l IH]; intros Hl; [reflexivity|].
  cbn [split].
  destruct (Ascii.eqb_spec a sep) as [->|Hne]; [destruct Hl; left; reflexivity|].
  rewrite IH by (intros H; apply Hl; right; exact H). reflexivity.
Qed.

Lemma split_join sep ls :
  ls <> [] -> Forall (fun l => ~ In sep l) ls ->
  split sep (join sep ls) = ls.
Proof.
  induction ls as [|l ls IH]; intros Hne H; [congruence|].
  inversion H as [|? ? Hl Hls]; subst.
  destruct ls as [|l' ls].
  - apply split_one_line, Hl.
  - rewrite join_cons by discriminate.
    rewrite split_line_sep by exact Hl.
    rewrite IH; [reflexivity|discriminate|exact Hls].
Qed.

End more_text_facts.

(** ** The closing pass, line by line *)

Section closing_lines.

Implicit Types (lines ls : list text) (l : text).

Lemma line_step_refl l : line_step l l.
Proof. left. reflexivity. Qed.

Lemma bare_terminator_strip pre post :
  forallb is_space pre = true -> forallb is_space post = true ->
  strip (pre ++ lit "};" ++ post) = lit "};".
Proof.
  intros Hp Hq.
  apply (strip_sandwich pre post "}" [";"%char] ["}"%char] ";");
    (reflexivity || assumption).
Qed.

Lemma closed_call_strip pre post :
  forallb is_space pre = true -> forallb is_space post = true ->
  strip (pre ++ lit "});" ++ post) = lit "});".
Proof.
  intros Hp Hq.
  apply (strip_sandwich pre post "}" [")"; ";"]%char ["}"; ")"]%char ";");
    (reflexivity || assumption).
Qed.

(** A line the pass has rewritten is not rewritten again. *)
Lemma line_step_trans l l' l'' :
  line_step l l' -> line_step l' l'' -> line_step l l''.
Proof.
  intros [->|H1] H2; [exact H2|].
  destruct H2 as [->|[pre2 [post2 [E2 [_ [Hp2 Hq2]]]]]]; [right; exact H1|].
  destruct H1 as [pre [post [_ [E1 [Hp Hq]]]]]. exfalso.
  pose proof (closed_call_strip pre post Hp Hq) as S1.
  pose proof (bare_terminator_strip pre2 post2 Hp2 Hq2) as S2.
  rewrite <- E1, E2, S2 in S1. discriminate S1.
Qed.

Lemma Forall2_line_step_refl lines : Forall2 line_step lines lines.
Proof. induction lines; constructor; [apply line_step_refl|assumption]. Qed.

Lemma Forall2_line_step_trans lines lines' lines'' :
  Forall2 line_step lines lines' -> Forall2 line_step lines' lines'' ->
  Forall2 line_step lines lines''.
Proof.
  intros H. revert lines''. induction H as [|l l' ls ls' Hl Hls IH]; intros lines'' H2.
  - inversion H2. constructor.
  - inversion H2 as [|? l'' ? ls'' Hl' Hls']; subst.
    constructor; [exact (line_step_trans _ _ _ Hl Hl')|apply IH, Hls'].
Qed.

Lemma close_scan_line_step ls bc : Forall2 line_step ls (close_scan ls bc).
Proof.
  revert bc. induction ls as [|l ls IH]; intros bc; [constructor|].
  cbn [close_scan]. destruct (_ && _).
  - case_bool_decide as Hb; [|apply Forall2_line_step_refl].
    constructor; [|apply Forall2_line_step_refl].
    destruct (strip_decompose l) as [pre [post [E [Hp Hq]]]]. rewrite Hb in E.
    right. exists pre, post. split; [exact E|]. split; [|auto].
    rewrite E at 1. apply replace_bare; assumption.
  - constructor; [apply line_step_refl|apply IH].
Qed.

Lemma close_decl_line_step lines i : Forall2 line_step lines (close_decl lines i).
Proof.
  unfold close_decl. destruct (lines !! i); [|apply Forall2_line_step_refl].
  destruct (matches _ _); [|apply Forall2_line_step_refl].
  rewrite <- (take_drop i lines) at 1.
  apply Forall2_app; [apply Forall2_line_step_refl|apply close_scan_line_step].
Qed.

Lemma close_all_line_step lines : Forall2 line_step lines (close_all lines).
Proof.
  unfold close_all. generalize (seq 0 (length lines)) as idx. intros idx.
  revert lines. induction idx as [|i idx IH]; intros lines.
  - apply Forall2_line_step_refl.
  - cbn [fold_left].
    exact (Forall2_line_step_trans _ _ _ (close_decl_line_step lines i) (IH _)).
Qed.

Lemma line_step_no_newline l l' :
  line_step l l' -> ~ In newline l -> ~ In newline l'.
Proof.
  intros [->|[pre [post [-> [-> _]]]]] H; [exact H|].
  intros Hin. apply H.
  apply in_app_or in Hin as [Hin|Hin]; [apply in_or_app; left; exact Hin|].
  apply in_app_or in Hin as [Hin|Hin].
  - destruct Hin as [Hin|[Hin|[Hin|[]]]]; discriminate Hin.
  - apply in_or_app. right. apply in_or_app. right. exact Hin.
Qed.

End closing_lines.

(** ** The matcher and the relation *)

Section matcher_relation.

Implicit Types (re : regex) (s m x : text) (r : span) (k : cls) (q : quant).

(** The matcher at an item, with the greedy loop named. *)
Lemma match_here_atom k q re s :
  match_here (Atom k q :: re) s =
  match q with
  | Once =>
      match s with
      | a :: s' => if cls_match k a then shift <$> match_here re s' else None
      | [] => None
      end
  | Maybe =>
      match s with
      | a :: s' =>
          if cls_match k a
          then match match_here re s' with
               | Some r => Some (shift r)
               | None => match_here re s
               end
          else match_here re s
      | [] => match_here re s
      end
  | Many => greedy k (match_here re) s
  | Many1 =>
      match s with
      | a :: s' =>
          if cls_match k a then shift <$> greedy k (match_here re) s' else None
      | [] => None
      end
  end.
Proof. destruct q; reflexivity. Qed.

Lemma greedy_nil k (rest : text -> option span) : greedy k rest [] = rest [].
Proof. reflexivity. Qed.

Lemma greedy_cons k (rest : text -> option span) a s :
  greedy k rest (a :: s) =
  if cls_match k a
  then match greedy k rest s with
       | Some r => Some (shift r)
       | None => rest (a :: s)
       end
  else rest (a :: s).
Proof. reflexivity. Qed.

Lemma greedy_takes k (rest : text -> option span) s r :
  greedy k rest s = Some r ->
  exists cs s' r',
    s = cs ++ s' /\ Forall (fun a => cls_match k a = true) cs /\
    rest s' = Some r' /\ r = shift_by (length cs) r'.
Proof.
  revert r. induction s as [|a s IH]; intros r H.
  - rewrite greedy_nil in H. exists [], [], r. repeat split; auto.
  - rewrite greedy_cons in H. destruct (cls_match k a) eqn:Ha.
    + destruct (greedy k rest s) as [r0|] eqn:E.
      * injection H as <-. destruct (IH r0 eq_refl) as [cs [s' [r' [-> [Hcs [Hr ->]]]]]].
        exists (a :: cs), s', r'. repeat split; auto.
      * exists [], (a :: s), r. repeat split; auto.
    + exists [], (a :: s), r. repeat split; auto.
Qed.

(** Every match the matcher finds is made up as the pattern says. *)
Lemma match_here_derives re : forall s r,
  match_here re s = Some r -> derives re s r.
Proof.
  induction re as [|n re IH]; intros s r H.
  - injection H as <-. constructor.
  - destruct n as [k q| |].
    + rewrite match_here_atom in H. destruct q.
      * destruct s as [|a s]; [discriminate|].
        destruct (cls_match k a) eqn:Ha; [|discriminate].
        destruct (match_here re s) as [r0|] eqn:E; [|discriminate].
        injection H as <-.
        apply (derives_atom k Once re [a] s r0); [constructor|repeat constructor; exact Ha|].
        apply IH, E.
      * assert (Hnone : match_here re s = Some r -> derives (Atom k Maybe :: re) s r).
        { intros E. apply (derives_atom k Maybe re [] s r); [constructor|constructor|].
          apply IH, E. }
        destruct s as [|a s]; [apply Hnone, H|].
        destruct (cls_match k a) eqn:Ha; [|apply Hnone, H].
        destruct (match_here re s) as [r0|] eqn:E; [|apply Hnone, H].
        injection H as <-.
        apply (derives_atom k Maybe re [a] s r0); [constructor|repeat constructor; exact Ha|].
        apply IH, E.
      * apply greedy_takes in H as [cs [s' [r' [-> [Hcs [Hr ->]]]]]].
        apply derives_atom; [constructor|exact Hcs|apply IH, Hr].
      * destruct s as [|a s]; [discriminate|].
        destruct (cls_match k a) eqn:Ha; [|discriminate].
        destruct (greedy k (match_here re) s) as [r0|] eqn:E; [|discriminate].
        injection H as <-.
        apply greedy_takes in E as [cs [s' [r' [-> [Hcs [Hr ->]]]]]].
        apply (derives_atom k Many1 re (a :: cs) s' r');
          [constructor|constructor; assumption|apply IH, Hr].
    + cbn [match_here] in H. destruct (match_here re s) as [r0|] eqn:E; [|discriminate].
      injection H as <-. constructor. apply IH, E.
    + cbn [match_here] in H. destruct (match_here re s) as [r0|] eqn:E; [|discriminate].
      injection H as <-. constructor. apply IH, E.
Qed.

Lemma shift_by_fields n r :
  stop (shift_by n r) = n + stop r /\
  g_start (shift_by n r) = n + g_start r /\
  g_stop (shift_by n r) = n + g_stop r.
Proof.
  induction n as [|n [H1 [H2 H3]]]; [auto|].
  cbn [shift_by shift stop g_start g_stop]. rewrite H1, H2, H3. auto.
Qed.

(** A run of items before the rest of a pattern takes a text of its
    own. *)
Lemma derives_atoms_app (A : regex) re s r :
  Forall is_atom A -> derives (A ++ re) s r ->
  exists m s' r',
    s = m ++ s' /\ spells A m /\ derives re s' r' /\
    r = shift_by (length m) r'.
Proof.
  intros HA. revert s r. induction HA as [|n A Hn HA IH]; intros s r H.
  - exists [], s, r. repeat split; [constructor|exact H].
  - destruct n as [k q| |]; try destruct Hn.
    rewrite <- app_comm_cons in H.
    inversion H as [| | |? ? ? cs s0 r0 Hq Hcs Hd]; subst.
    destruct (IH _ _ Hd) as [m [s' [r' [-> [Hm [Hd' ->]]]]]].
    exists (cs ++ m), s', r'. split; [apply app_assoc|].
    split; [constructor; assumption|]. split; [exact Hd'|].
    rewrite length_app. clear. induction (length cs) as [|n IHn]; [reflexivity|].
    cbn [shift_by Nat.add]. rewrite IHn. reflexivity.
Qed.

(** A pattern with its group: the text of group 1 is the text the items
    of the group take. *)
Lemma derives_group (A B C : regex) s r :
  Forall is_atom A -> Forall is_atom B ->
  derives (A ++ GroupOpen :: B ++ GroupClose :: C) s r ->
  exists a b rest,
    s = a ++ b ++ rest /\ spells A a /\ spells B b /\ group1 r s = b.
Proof.
  intros HA HB H.
  destruct (derives_atoms_app A _ s r HA H) as [a [s1 [r1 [-> [Ha [H1 ->]]]]]].
  inversion H1 as [|? ? r2 H2| |]; subst.
  destruct (derives_atoms_app B _ s1 r2 HB H2) as [b [s2 [r3 [-> [Hb [H3 ->]]]]]].
  inversion H3 as [| |? ? r4 H4|]; subst.
  exists a, b, s2. repeat split; try assumption.
  unfold group1.
  destruct (shift_by_fields (length a) (opened (shift_by (length b) (closed r4))))
    as [_ [-> ->]].
  cbn [opened g_start g_stop].
  destruct (shift_by_fields (length b) (closed r4)) as [_ [_ ->]].
  cbn [closed g_stop].
  replace (length a + (length b + 0) - (length a + 0)) with (length b) by lia.
  rewrite Nat.add_0_r, drop_app_length, take_app_length. reflexivity.
Qed.

(** Every text [findall] returns is group 1 of a match at some place of
    the subject. *)
Lemma findall_from_match re s skip g :
  In g (findall_from re s skip) ->
  exists pre t r, s = pre ++ t /\ match_here re t = Some r /\ g = group1 r t.
Proof.
  revert skip. induction s as [|a s IH]; intros skip H; cbn [findall_from] in H.
  - destruct skip; [|destruct H].
    destruct (match_here re []) as [r|] eqn:E; [|destruct H].
    destruct H as [<-|[]]. exists [], [], r. auto.
  - destruct skip as [|k].
    + destruct (match_here re (a :: s)) as [r|] eqn:E.
      * destruct H as [<-|H]; [exists [], (a :: s), r; auto|].
        destruct (IH _ H) as [pre [t [r' [-> [Hm ->]]]]].
        exists (a :: pre), t, r'. auto.
      * destruct (IH _ H) as [pre [t [r' [-> [Hm ->]]]]].
        exists (a :: pre), t, r'. auto.
    + destruct (IH _ H) as [pre [t [r' [-> [Hm ->]]]]].
      exists (a :: pre), t, r'. auto.
Qed.

(** A pattern that begins with literal characters matches only where
    they stand. *)
Lemma match_here_literal_prefix x re s r :
  match_here (map (fun c => Atom (Chr c) Once) x ++ re) s = Some r ->
  starts_with x s = true.
Proof.
  revert s r. induction x as [|c x IH]; intros s r H; [reflexivity|].
  cbn [map app] in H. rewrite match_here_atom in H.
  destruct s as [|a s]; [discriminate|]. cbn [cls_match] in H.
  cbn [starts_with]. destruct (Ascii.eqb c a); [|discriminate].
  destruct (match_here _ s) as [r0|] eqn:E; [|discriminate].
  cbn [andb]. exact (IH _ _ E).
Qed.

End matcher_relation.

(** ** What the items of a pattern take *)

Section spelling.

Implicit Types (re : regex) (m x : text) (k : cls).

Lemma spells_nil_inv m : spells [] m -> m = [].
Proof. intros H. inversion H. reflexivity. Qed.

Lemma spells_once k re m :
  spells (Atom k Once :: re) m ->
  exists a m', m = a :: m' /\ cls_match k a = true /\ spells re m'.
Proof.
  intros H. inversion H as [| | |? ? ? cs m' Hq Hcs Hm]; subst.
  inversion Hq as [Hlen| | | |]. destruct cs as [|a [|b cs]]; try discriminate.
  inversion Hcs; subst. exists a, m'. auto.
Qed.

Lemma spells_maybe k re m :
  spells (Atom k Maybe :: re) m ->
  exists cs m', m = cs ++ m' /\ (cs = [] \/ exists a, cs = [a] /\ cls_match k a = true) /\
                spells re m'.
Proof.
  intros H. inversion H as [| | |? ? ? cs m' Hq Hcs Hm]; subst.
  exists cs, m'. split; [reflexivity|]. split; [|exact Hm].
  inversion Hq as [|Hlen|Hlen| |].
  - left. destruct cs; [reflexivity|discriminate].
  - right. destruct cs as [|a [|b cs]]; try discriminate.
    inversion Hcs; subst. eauto.
Qed.

Lemma spells_many k re m :
  spells (Atom k Many :: re) m ->
  exists cs m', m = cs ++ m' /\ Forall (fun a => cls_match k a = true) cs /\
                spells re m'.
Proof.
  intros H. inversion H as [| | |? ? ? cs m' Hq Hcs Hm]; subst.
  exists cs, m'. auto.
Qed.

Lemma spells_many1 k re m :
  spells (Atom k Many1 :: re) m ->
  exists cs m', m = cs ++ m' /\ cs <> [] /\
                Forall (fun a => cls_match k a = true) cs /\ spells re m'.
Proof.
  intros H. inversion H as [| | |? ? ? cs m' Hq Hcs Hm]; subst.
  exists cs, m'. repeat split; auto.
  inversion Hq. destruct cs; [discriminate|discriminate].
Qed.

Lemma spells_literal x re m :
  spells (map (fun c => Atom (Chr c) Once) x ++ re) m ->
  exists m', m = x ++ m' /\ spells re m'.
Proof.
  revert m. induction x as [|c x IH]; intros m H; [exists m; auto|].
  cbn [map app] in H. apply spells_once in H as [a [m1 [-> [Ha H]]]].
  cbn [cls_match] in Ha. apply Ascii.eqb_eq in Ha as <-.
  destruct (IH _ H) as [m' [-> Hm']]. exists m'. auto.
Qed.

(** What the part of the style pattern before the name takes: the word
    [const] and white space. *)
Lemma spells_style_head m :
  spells style_head m ->
  exists ws, m = lit "const" ++ ws /\ ws <> [] /\ forallb is_space ws = true.
Proof.
  intros H. apply spells_literal in H as [m1 [-> H]].
  apply spells_many1 in H as [ws [m2 [-> [Hne [Hws H]]]]].
  apply spells_nil_inv in H as ->. exists ws. rewrite app_nil_r.
  repeat split; auto. apply forallb_forall. intros a Ha.
  rewrite Forall_forall in Hws. apply Hws. apply list_elem_of_In. exact Ha.
Qed.

(** What the name part of the style pattern takes. *)
Lemma spells_style_name m :
  spells style_name m ->
  exists w1 a o w2,
    m = w1 ++ [a] ++ lit "tyle" ++ o ++ w2 /\
    Forall (fun c => is_word c = true) w1 /\
    (a = "S"%char \/ a = "s"%char) /\
    (o = [] \/ o = lit "s") /\
    Forall (fun c => is_word c = true) w2.
Proof.
  intros H. unfold style_name in H. cbn [app] in H.
  apply spells_many in H as [w1 [m1 [-> [Hw1 H]]]].
  apply spells_once in H as [a [m2 [-> [Ha H]]]].
  apply spells_literal in H as [m3 [-> H]].
  apply spells_maybe in H as [o [m4 [-> [Ho H]]]].
  apply spells_many in H as [w2 [m5 [-> [Hw2 H]]]].
  apply spells_nil_inv in H as ->.
  exists w1, a, o, w2. rewrite app_nil_r. repeat split; auto.
  - cbn [cls_match existsb] in Ha.
    destruct (Ascii.eqb_spec a "S"); [auto|].
    destruct (Ascii.eqb_spec a "s"); [auto|discriminate Ha].
  - destruct Ho as [->|[b [-> Hb]]]; [auto|].
    cbn [cls_match] in Hb. apply Ascii.eqb_eq in Hb as <-. auto.
Qed.

End spelling.

(** ** Substitution at the first match *)

Section first_match.

Implicit Types (re : regex) (s m x pre post : text) (repl : list piece).

Lemma match_here_literal_app x re s :
  match_here (map (fun c => Atom (Chr c) Once) x ++ re) (x ++ s)
  = shift_by (length x) <$> match_here re s.
Proof.
  induction x as [|c x IH]; cbn [map app length shift_by].
  - destruct (match_here re s); reflexivity.
  - rewrite match_here_atom. cbn [cls_match]. rewrite Ascii.eqb_refl, IH.
    destruct (match_here re s); reflexivity.
Qed.

(** A greedy item takes a whole run when the rest of the pattern
    matches right after it. *)
Lemma greedy_run k (rest : text -> option span) cs s r :
  Forall (fun a => cls_match k a = true) cs ->
  rest s = Some r ->
  match s with [] => True | a :: _ => cls_match k a = false end ->
  greedy k rest (cs ++ s) = Some (shift_by (length cs) r).
Proof.
  intros Hcs Hr Hs. induction Hcs as [|a cs Ha _ IH]; cbn [app length shift_by].
  - destruct s as [|a s]; [rewrite greedy_nil; exact Hr|].
    rewrite greedy_cons, Hs. exact Hr.
  - rewrite greedy_cons, Ha, IH. reflexivity.
Qed.

Lemma sub_from_skip re repl m s :
  sub_from re repl (m ++ s) (length m) = sub_from re repl s 0.
Proof. induction m as [|a m IH]; [reflexivity|exact IH]. Qed.

(** Before the first place the pattern matches, the text is kept. *)
Lemma sub_from_before re repl pre s :
  (forall k, k < length pre -> match_here re (drop k (pre ++ s)) = None) ->
  sub_from re repl (pre ++ s) 0 = pre ++ sub_from re repl s 0.
Proof.
  induction pre as [|a pre IH]; intros H; [reflexivity|].
  rewrite <- app_comm_cons. cbn [sub_from].
  pose proof (H 0 ltac:(cbn; lia)) as H0.
  change (drop 0 ((a :: pre) ++ s)) with (a :: pre ++ s) in H0.
  rewrite H0, <- app_comm_cons. f_equal. apply IH.
  intros k Hk. apply (H (S k)). cbn [length]. lia.
Qed.

Lemma sub_from_none re repl s :
  search re s = false -> sub_from re repl s 0 = s.
Proof.
  induction s as [|a s IH]; cbn [search sub_from].
  - destruct (match_here re []); [discriminate|reflexivity].
  - destruct (match_here re (a :: s)); [discriminate|].
    intros H. rewrite IH by exact H. reflexivity.
Qed.

(** The framework import pattern matches only where [import React]
    stands, and there it takes the statement up to its semicolon. *)
Lemma react_import_needs_literal s r :
  match_here react_import_pattern s = Some r ->
  starts_with (lit "import React") s = true.
Proof.
  unfold react_import_pattern. cbn [app match_here]. intros H.
  destruct (match_here _ s) as [r0|] eqn:E; [|discriminate].
  exact (match_here_literal_prefix _ _ _ _ E).
Qed.

Lemma search_react_import s :
  search react_import_pattern s = true ->
  contains (lit "import React") s = true.
Proof.
  induction s as [|a s IH]; cbn [search contains]; intros H.
  - destruct (match_here react_import_pattern []) as [r|] eqn:E; [|discriminate].
    rewrite (react_import_needs_literal _ _ E). reflexivity.
  - destruct (match_here react_import_pattern (a :: s)) as [r|] eqn:E.
    + rewrite (react_import_needs_literal _ _ E). reflexivity.
    + rewrite (IH H). apply orb_true_r.
Qed.

Lemma react_import_statement x post :
  ~ In ";"%char x ->
  match_here react_import_pattern (lit "import React" ++ x ++ lit ";" ++ post)
  = Some (Span (length (lit "import React" ++ x ++ lit ";")) 0
               (length (lit "import React" ++ x ++ lit ";"))).
Proof.
  intros Hx. unfold react_import_pattern. cbn [app match_here].
  unfold chars. rewrite match_here_literal_app, match_here_atom.
  rewrite (greedy_run _ _ x (lit ";" ++ post) (Span 1 1 1)).
  - cbn [fmap option_fmap option_map].
    destruct (shift_by_fields (length (lit "import React"))
                (shift_by (length x) (Span 1 1 1))) as [E1 [_ E3]].
    destruct (shift_by_fields (length x) (Span 1 1 1)) as [F1 [_ F3]].
    unfold opened. rewrite E1, E3, F1, F3. cbn [stop g_stop].
    rewrite !length_app. cbn [length lit list_ascii_of_string]. reflexivity.
  - apply Forall_forall. intros a Ha. cbn [cls_match].
    destruct (Ascii.eqb_spec ";" a) as [<-|_]; [|reflexivity].
    destruct Hx. apply list_elem_of_In. exact Ha.
  - reflexivity.
  - reflexivity.
Qed.

Lemma search_at re pre s r :
  match_here re s = Some r -> search re (pre ++ s) = true.
Proof.
  intros H. induction pre as [|a pre IH]; cbn [app].
  - destruct s; cbn [search]; rewrite H; reflexivity.
  - cbn [search]. destruct (match_here re (a :: pre ++ s)); [reflexivity|exact IH].
Qed.

(** At a match of a non-empty text, the replacement stands for the text
    and the substitution goes on after it. *)
Lemma sub_from_match re repl m s r :
  match_here re (m ++ s) = Some r -> stop r = length m -> m <> [] ->
  sub_from re repl (m ++ s) 0
  = expand repl (group1 r (m ++ s)) ++ sub_from re repl s 0.
Proof.
  intros H Hstop Hm. destruct m as [|a m]; [congruence|].
  rewrite <- app_comm_cons in *. cbn [sub_from]. rewrite H, Hstop.
  cbn [length]. rewrite sub_from_skip. reflexivity.
Qed.

End first_match.

(** ** More on the loop of the fixer *)

Section fixer_loop_more.

Implicit Types (w : world) (p q : string) (c : text)
  (d : gmap string disk_file) (files : list string) (o : option disk_file).

(** Each file is left as it was or as the fixer leaves such a file. *)
Lemma fix_loop_frame files : forall n w r w',
  fix_loop files n w = (r, w') ->
  forall q, disk w' !! q = disk w !! q \/
            (In q files /\ disk w' !! q = fixed <$> disk w !! q).
Proof.
  induction files as [|p files IH]; intros n w r w' H q.
  - injection H as _ <-. left. reflexivity.
  - destruct (readable_cases (disk w !! p)) as [[e He]|Hr].
    + rewrite (fix_loop_visit_raise _ _ _ _ _ He) in H. injection H as _ <-.
      left. reflexivity.
    + rewrite (fix_loop_visit_ok _ _ _ _ Hr) in H.
      destruct (IH _ _ _ _ H q) as [E|[Hq E]]; cbn [disk] in E;
        rewrite alter_fixed_lookup in E;
        destruct (decide (p = q)) as [<-|Hne].
      * right. split; [left; reflexivity|exact E].
      * left. exact E.
      * right. split; [left; reflexivity|]. rewrite E. apply fmap_fixed_idem.
      * right. split; [right; exact Hq|exact E].
Qed.

(** The lines of one visit: one line that says the file was modified
    when the fixer changes the file, and no such line when it does not. *)
Lemma visit_lines_modified p o :
  (fixed <$> o = o /\
   forall q, List.filter (modified_line q) (visit_lines p o) = [] /\
             List.filter any_modified_line (visit_lines p o) = []) \/
  (fixed <$> o <> o /\ exists vars, visit_lines p o = [Modified p vars]).
Proof.
  destruct o as [[c|e]|]; cbn [visit_lines fmap option_fmap option_map fixed].
  - destruct (contains wrap_call c) eqn:Ec;
      [left; split; [reflexivity|intros q; split; reflexivity]|].
    destruct (findall style_pattern (add_stylesheet_import c)) as [|v vs] eqn:Ef.
    + left. split; [reflexivity|intros q; split; reflexivity].
    + right. split; [|eauto]. intros [= H].
      pose proof (wrap_content_wrap_call (add_stylesheet_import c)) as Hw.
      rewrite Ef in Hw. specialize (Hw ltac:(discriminate)).
      rewrite H, Ec in Hw. discriminate Hw.
  - left. split; [reflexivity|intros q; split; reflexivity].
  - left. split; [reflexivity|intros q; split; reflexivity].
Qed.

Lemma visit_lines_path p o m :
  In m (visit_lines p o) -> line_path m = Some p.
Proof.
  destruct o as [[c|e]|]; cbn [visit_lines].
  - destruct (contains wrap_call c); [intros [<-|[]]; reflexivity|].
    destruct (findall _ _); [intros []|intros [<-|[]]; reflexivity].
  - intros [].
  - intros [<-|[]]. reflexivity.
Qed.

(** What a run of the loop prints. *)
Lemma fix_loop_lines files : forall n w r w',
  fix_loop files n w = (r, w') ->
  exists out,
    console w' = console w ++ out /\
    (forall m, In m out -> exists q, In q files /\ line_path m = Some q) /\
    (forall p,
       length (List.filter (modified_line p) out) <= 1 /\
       (fixed <$> disk w !! p = disk w !! p ->
        List.filter (modified_line p) out = [])) /\
    (forall n', r = Ret n' ->
       n' = n + length (List.filter any_modified_line out)).
Proof.
  induction files as [|p files IH]; intros n w r w' H.
  - injection H as <- <-. exists []. rewrite app_nil_r.
    split; [reflexivity|]. split; [intros m []|]. split.
    + intros p. split; [cbn; lia|reflexivity].
    + intros n' [= <-]. cbn. lia.
  - destruct (readable_cases (disk w !! p)) as [[e He]|Hr].
    + rewrite (fix_loop_visit_raise _ _ _ _ _ He) in H. injection H as <- <-.
      exists []. rewrite app_nil_r.
      split; [reflexivity|]. split; [intros m []|]. split; [|discriminate].
      intros q. split; [cbn; lia|reflexivity].
    + rewrite (fix_loop_visit_ok _ _ _ _ Hr) in H.
      destruct (IH _ _ _ _ H) as [out [Ec [Hpath [Hmod Hcount]]]].
      cbn [disk console] in *.
      exists (visit_lines p (disk w !! p) ++ out).
      split; [rewrite Ec, <- app_assoc; reflexivity|]. split; [|split].
      * intros m Hm. apply in_app_or in Hm as [Hm|Hm].
        -- exists p. split; [left; reflexivity|]. exact (visit_lines_path _ _ _ Hm).
        -- destruct (Hpath m Hm) as [q [Hq E]]. exists q. split; [right; exact Hq|exact E].
      * intros q. rewrite List.filter_app, length_app.
        destruct (Hmod q) as [Hle Hnone]. rewrite alter_fixed_lookup in Hnone.
        destruct (visit_lines_modified p (disk w !! p))
          as [[Hsame Hno]|[Hch [vars Hv]]].
        -- destruct (Hno q) as [-> _]. cbn [length Nat.add]. split; [exact Hle|].
           intros Hq. cbn [app]. apply Hnone.
           destruct (decide (p = q)) as [<-|]; [|exact Hq].
           apply fmap_fixed_idem.
        -- rewrite Hv. cbn [List.filter modified_line].
           destruct (decide (p = q)) as [<-|Hne].
           ++ rewrite bool_decide_eq_true_2 by reflexivity.
              rewrite Hnone by apply fmap_fixed_idem. cbn [length Nat.add app].
              split; [lia|]. intros Hq. contradiction.
           ++ rewrite bool_decide_eq_false_2 by exact Hne. cbn [length Nat.add app].
              split; [exact Hle|]. intros Hq. apply Hnone. exact Hq.
      * intros n' Hn'. rewrite (Hcount n' Hn'), List.filter_app, length_app.
        destruct (visit_lines_modified p (disk w !! p))
          as [[Hsame Hno]|[Hch [vars Hv]]].
        -- destruct (Hno p) as [_ ->].
           rewrite bool_decide_eq_false_2 by (intros Hne; apply Hne; exact Hsame).
           cbn [length]. lia.
        -- rewrite Hv, bool_decide_eq_true_2 by exact Hch.
           cbn [List.filter any_modified_line length]. lia.
Qed.

End fixer_loop_more.

(** ** The enumeration and the script of the scanner *)

Section enumeration.

Implicit Types (ps : list string) (p : string) (d : gmap string disk_file).

Lemma find_prints_cons p ps :
  find_prints (p :: ps) = lit p ++ newline :: find_prints ps.
Proof. unfold find_prints. cbn [map concat]. rewrite <- app_assoc. reflexivity. Qed.

Lemma find_prints_join p ps :
  find_prints (p :: ps) = join newline (map lit (p :: ps)) ++ [newline].
Proof.
  revert p. induction ps as [|p' ps IH]; intros p.
  - unfold find_prints. cbn [map concat join]. rewrite app_nil_r. reflexivity.
  - rewrite find_prints_cons, IH. cbn [map].
    rewrite (join_cons newline (lit p) (lit p' :: map lit ps)) by discriminate.
    rewrite <- app_assoc. reflexivity.
Qed.

Lemma found_path_no_newline p : found_path p -> ~ In newline (lit p).
Proof.
  intros [mid [-> Hmid]] H.
  apply in_app_or in H as [H|H].
  - vm_compute in H. intuition discriminate.
  - apply in_app_or in H as [H|H]; [exact (Hmid H)|].
    vm_compute in H. intuition discriminate.
Qed.

Lemma found_path_head p : found_path p -> exists t, lit p = "s"%char :: t.
Proof. intros [mid [-> _]]. eexists. reflexivity. Qed.

Lemma found_path_last p : found_path p -> exists u, lit p = u ++ ["s"%char].
Proof.
  intros [mid [-> _]]. exists (lit "src/tandapay" ++ mid ++ lit ".j").
  rewrite <- !app_assoc. reflexivity.
Qed.

Lemma join_found_last p ps :
  Forall found_path (p :: ps) ->
  exists u, join newline (map lit (p :: ps)) = u ++ ["s"%char].
Proof.
  revert p. induction ps as [|p' ps IH]; intros p H.
  - inversion H; subst. cbn [map join]. apply found_path_last. assumption.
  - inversion H as [|? ? _ H']; subst. destruct (IH p' H') as [u Hu].
    cbn [map]. rewrite (join_cons newline (lit p) (lit p' :: map lit ps)) by discriminate.
    cbn [map] in Hu. rewrite Hu. exists (lit p ++ newline :: u).
    rewrite <- app_assoc. reflexivity.
Qed.

(** The scanner enumerates exactly the paths [find] printed. *)
Lemma js_files_of_find_prints ps :
  Forall found_path ps -> js_files_of (find_prints ps) = ps.
Proof.
  destruct ps as [|p ps]; intros H; [reflexivity|].
  assert (Hstrip : strip (find_prints (p :: ps)) = join newline (map lit (p :: ps))).
  { rewrite find_prints_join.
    destruct (join_found_last p ps H) as [u Hu].
    assert (Hhead : exists t, join newline (map lit (p :: ps)) = "s"%char :: t).
    { inversion H as [|? ? Hp _]; subst. destruct (found_path_head p Hp) as [t Ht].
      destruct ps as [|p' ps]; cbn [map]; [cbn [join]; eauto|].
      rewrite (join_cons newline (lit p)) by discriminate. rewrite Ht. eauto. }
    destruct Hhead as [t Ht]. rewrite Ht in *.
    apply (strip_sandwich [] [newline] "s" t u "s"); auto. }
  unfold js_files_of. rewrite Hstrip.
  destruct (join newline (map lit (p :: ps))) as [|a t] eqn:Ej.
  - destruct (join_found_last p ps H) as [u Hu]. rewrite Ej in Hu.
    destruct u; discriminate Hu.
  - rewrite <- Ej, split_join.
    + rewrite map_map. clear. induction (p :: ps) as [|q qs IH]; [reflexivity|].
      cbn [map]. unfold lit at 1. rewrite string_of_list_ascii_of_string, IH.
      reflexivity.
    + discriminate.
    + clear -H. induction H as [|q qs Hq _ IH]; [constructor|].
      cbn [map]. constructor; [apply found_path_no_newline, Hq|exact IH].
Qed.

Lemma scan_records_needs_fixing d p :
  map file (scan_records p (d !! p)) = if needs_fixing d p then [p] else [].
Proof.
  unfold needs_fixing. destruct (d !! p) as [[c|e]|]; cbn [scan_records]; try reflexivity.
  destruct (findall style_pattern c); [reflexivity|].
  destruct (contains wrap_call c); reflexivity.
Qed.

Lemma scan_records_files d ps :
  map file (flat_map (fun p => scan_records p (d !! p)) ps)
  = List.filter (needs_fixing d) ps.
Proof.
  induction ps as [|p ps IH]; [reflexivity|].
  cbn [flat_map List.filter]. rewrite map_app, IH, scan_records_needs_fixing.
  destruct (needs_fixing d p); reflexivity.
Qed.

End enumeration.

(** ** Further properties *)

(** X1: the wrapping step changes the substituted text line by line
    only: the text has as many lines after the closing pass as before,
    and each line is either left as it is or was a bare terminator, which
    became the end of the call with its white space kept.  Without any
    bare terminator line the step is the substitution alone. *)
Theorem wrap_content_line_by_line (c : text) :
  Forall2 line_step
    (split newline (sub style_pattern style_replacement c))
    (split newline (wrap_content c)) /\
  length (split newline (wrap_content c))
    = length (split newline (sub style_pattern style_replacement c)) /\
  ((forall l, In l (split newline (sub style_pattern style_replacement c)) ->
      strip l <> lit "};") ->
   wrap_content c = sub style_pattern style_replacement c).
Proof.
  set (before := split newline (sub style_pattern style_replacement c)).
  pose proof (close_all_line_step before) as Hstep.
  assert (Hsplit : split newline (wrap_content c) = close_all before).
  { unfold wrap_content. fold before. apply split_join.
    - intros E. rewrite E in Hstep. inversion Hstep as [Hb|]; subst.
      exact (split_not_nil newline _ (eq_sym Hb)).
    - pose proof (split_lines_no_sep newline
                    (sub style_pattern style_replacement c)) as Hno.
      fold before in Hno. clear -Hstep Hno.
      induction Hstep as [|l l' ls ls' Hl _ IH]; [constructor|].
      inversion Hno; subst. constructor; [|apply IH; assumption].
      eapply line_step_no_newline; eassumption. }
  rewrite Hsplit. split; [exact Hstep|]. split.
  - symmetry. exact (Forall2_length _ _ _ Hstep).
  - intros Hbare.
    assert (E : close_all before = before).
    { clear Hsplit. induction Hstep as [|l l' ls ls' Hl _ IH]; [reflexivity|].
      f_equal.
      - destruct Hl as [->|[pre [post [E [_ [Hp Hq]]]]]]; [reflexivity|].
        destruct (Hbare l); [left; reflexivity|].
        rewrite E. apply bare_terminator_strip; assumption.
      - apply IH. intros l0 H0. apply Hbare. right. exact H0. }
    unfold wrap_content. fold before. rewrite E. apply join_split.
Qed.

(** X2: the closing pass looks for a rewritten declaration only at the
    head of a stripped line.  When no line of the substituted text
    begins with [const] once stripped, as when every declaration is
    exported, no line is rewritten: the step is the substitution alone,
    and every declaration is left unclosed. *)
Theorem close_needs_leading_const (c : text) :
  (forall l, In l (split newline (sub style_pattern style_replacement c)) ->
     starts_with (lit "const") (strip l) = false) ->
  close_all (split newline (sub style_pattern style_replacement c))
    = split newline (sub style_pattern style_replacement c) /\
  wrap_content c = sub style_pattern style_replacement c.
Proof.
  intros H.
  assert (Hdecl : forall lines i,
            (forall l, In l lines -> starts_with (lit "const") (strip l) = false) ->
            close_decl lines i = lines).
  { intros lines i Hl. unfold close_decl.
    destruct (lines !! i) as [line|] eqn:E; [|reflexivity].
    destruct (matches wrapped_pattern (strip line)) eqn:Em; [|reflexivity].
    exfalso. unfold matches in Em. apply bool_decide_eq_true in Em as [r Hr].
    apply (match_here_literal_prefix (lit "const")) in Hr.
    rewrite Hl in Hr; [discriminate Hr|].
    apply list_elem_of_In, list_elem_of_lookup. eauto. }
  assert (Hall : forall lines,
            (forall l, In l lines -> starts_with (lit "const") (strip l) = false) ->
            close_all lines = lines).
  { intros lines Hl. unfold close_all.
    induction (seq 0 (length lines)) as [|i idx IH]; [reflexivity|].
    cbn [fold_left]. rewrite Hdecl by exact Hl. exact IH. }
  split; [apply Hall, H|].
  unfold wrap_content. rewrite Hall by exact H. apply join_split.
Qed.

Lemma close_needs_leading_const_witness :
  (forall l,
     In l (split newline (sub style_pattern style_replacement exported_source)) ->
     starts_with (lit "const") (strip l) = false) /\
  close_all (split newline (sub style_pattern style_replacement exported_source))
    = split newline (sub style_pattern style_replacement exported_source) /\
  wrap_content exported_source
    = sub style_pattern style_replacement exported_source /\
  wrap_content exported_source = exported_result.
Proof.
  assert (H : forall l,
            In l (split newline
                    (sub style_pattern style_replacement exported_source)) ->
            starts_with (lit "const") (strip l) = false).
  { intros l Hl. vm_compute in Hl.
    destruct Hl as [<-|[<-|[<-|[]]]]; vm_compute; reflexivity. }
  split; [exact H|].
  destruct (close_needs_leading_const exported_source H) as [H1 H2].
  split; [exact H1|]. split; [exact H2|]. vm_compute. reflexivity.
Defined.

(** X3: every name the style pattern captures, which is every name the
    scanner and the fixer report, is a run of word characters that holds
    [Style] or [style], and stands in the content after the word [const]
    and white space. *)
Theorem style_names_are_words (c name : text) :
  In name (findall style_pattern c) ->
  Forall (fun a => is_word a = true) name /\
  (contains (lit "Style") name = true \/ contains (lit "style") name = true) /\
  exists ws, ws <> [] /\ forallb is_space ws = true /\
             contains (lit "const" ++ ws ++ name) c = true.
Proof.
  intros H. apply findall_from_match in H as [pre [t [r [-> [Hm ->]]]]].
  apply match_here_derives in Hm.
  change style_pattern
    with (style_head ++ GroupOpen :: style_name ++ GroupClose :: style_tail) in Hm.
  apply derives_group in Hm as [a [b [rest [-> [Ha [Hb ->]]]]]];
    [|repeat constructor|repeat constructor].
  apply spells_style_head in Ha as [ws [-> [Hne Hws]]].
  apply spells_style_name in Hb as [w1 [x [o [w2 [-> [Hw1 [Hx [Ho Hw2]]]]]]]].
  split; [|split].
  - apply Forall_app. split; [exact Hw1|].
    apply Forall_app. split; [destruct Hx as [-> | ->]; repeat constructor|].
    apply Forall_app. split; [repeat constructor|].
    apply Forall_app. split; [destruct Ho as [-> | ->]; repeat constructor|exact Hw2].
  - destruct Hx as [-> | ->]; [left|right]; apply contains_true;
      exists w1, (o ++ w2); reflexivity.
  - exists ws. split; [exact Hne|]. split; [exact Hws|].
    apply contains_true. exists pre, rest. rewrite <- !app_assoc. reflexivity.
Qed.

Lemma style_names_are_words_witness :
  In (lit "headerStyle") (findall style_pattern two_styles_source) /\
  Forall (fun a => is_word a = true) (lit "headerStyle") /\
  (contains (lit "Style") (lit "headerStyle") = true \/
   contains (lit "style") (lit "headerStyle") = true) /\
  exists ws, ws <> [] /\ forallb is_space ws = true /\
             contains (lit "const" ++ ws ++ lit "headerStyle") two_styles_source
             = true.
Proof.
  assert (H : In (lit "headerStyle") (findall style_pattern two_styles_source)).
  { vm_compute. right. left. reflexivity. }
  split; [exact H|]. exact (style_names_are_words _ _ H).
Defined.

(** X4: the import step at a framework import.  When the content holds
    neither the symbol nor an import from the target module, and its
    first [import React] begins a statement that ends at a semicolon, the
    new import line is put right after that statement, and what stands
    before it is kept.  Later framework imports get the line too; with
    none, the rest of the content is kept as well.  The step then has
    nothing left to do: applied again, it changes nothing. *)
Theorem add_import_after_first_react (pre x post : text) :
  contains (lit "StyleSheet")
    (pre ++ lit "import React" ++ x ++ lit ";" ++ post) = false ->
  contains (lit "from 'react-native';")
    (pre ++ lit "import React" ++ x ++ lit ";" ++ post) = false ->
  ~ In ";"%char x ->
  (forall k, k < length pre ->
     starts_with (lit "import React")
       (drop k (pre ++ lit "import React" ++ x ++ lit ";" ++ post)) = false) ->
  add_stylesheet_import (pre ++ lit "import React" ++ x ++ lit ";" ++ post)
  = pre ++ lit "import React" ++ x ++ lit ";" ++ [newline] ++ stylesheet_import
    ++ sub react_import_pattern
         [Group1; Plain [newline]; Plain stylesheet_import] post /\
  (contains (lit "import React") post = false ->
   add_stylesheet_import (pre ++ lit "import React" ++ x ++ lit ";" ++ post)
   = pre ++ lit "import React" ++ x ++ lit ";" ++ [newline]
     ++ stylesheet_import ++ post) /\
  add_stylesheet_import
    (add_stylesheet_import (pre ++ lit "import React" ++ x ++ lit ";" ++ post))
  = add_stylesheet_import (pre ++ lit "import React" ++ x ++ lit ";" ++ post).
Proof.
  intros Hsym Hrn Hx Hfirst.
  set (stmt := lit "import React" ++ x ++ lit ";").
  assert (Ec : pre ++ lit "import React" ++ x ++ lit ";" ++ post
               = pre ++ stmt ++ post).
  { unfold stmt. rewrite <- !app_assoc. reflexivity. }
  assert (Hm : match_here react_import_pattern (stmt ++ post)
               = Some (Span (length stmt) 0 (length stmt))).
  { unfold stmt. rewrite <- !app_assoc. apply react_import_statement, Hx. }
  assert (Hadd : add_stylesheet_import (pre ++ stmt ++ post)
                 = pre ++ stmt ++ [newline] ++ stylesheet_import
                   ++ sub react_import_pattern
                        [Group1; Plain [newline]; Plain stylesheet_import] post).
  { rewrite <- Ec. unfold add_stylesheet_import. rewrite Hsym.
    unfold rn_import_pattern, chars. rewrite search_literal, Hrn.
    rewrite Ec, (search_at _ pre _ _ Hm). unfold sub.
    rewrite sub_from_before.
    - rewrite (sub_from_match _ _ stmt post _ Hm); [|reflexivity|].
      + unfold group1. cbn [g_start g_stop drop].
        rewrite Nat.sub_0_r, drop_0, take_app_length.
        unfold expand. cbn [map concat]. fold stylesheet_import.
        rewrite app_nil_r, <- !app_assoc. reflexivity.
      + unfold stmt. discriminate.
    - intros k Hk. rewrite <- Ec.
      destruct (match_here react_import_pattern (drop k _)) as [r|] eqn:E;
        [|reflexivity].
      apply react_import_needs_literal in E. rewrite (Hfirst k Hk) in E.
      discriminate E. }
  assert (Hstmt : pre ++ stmt ++ [newline] ++ stylesheet_import
                  ++ sub react_import_pattern
                       [Group1; Plain [newline]; Plain stylesheet_import] post
                  = pre ++ lit "import React" ++ x ++ lit ";" ++ [newline]
                    ++ stylesheet_import
                    ++ sub react_import_pattern
                         [Group1; Plain [newline]; Plain stylesheet_import] post).
  { unfold stmt. rewrite <- !app_assoc. reflexivity. }
  rewrite Ec, Hadd, Hstmt. split; [reflexivity|]. split.
  - intros Hpost. do 6 f_equal. apply sub_from_none.
    destruct (search react_import_pattern post) eqn:E; [|reflexivity].
    apply search_react_import in E. congruence.
  - apply add_import_symbol_present. apply contains_true.
    exists (pre ++ lit "import React" ++ x ++ lit ";" ++ [newline] ++ lit "import { "),
           (lit " } from 'react-native';"
            ++ sub react_import_pattern
                 [Group1; Plain [newline]; Plain stylesheet_import] post).
    unfold stylesheet_import. rewrite <- !app_assoc. reflexivity.
Qed.

Lemma add_import_after_first_react_witness :
  contains (lit "StyleSheet") two_imports_source = false /\
  contains (lit "from 'react-native';") two_imports_source = false /\
  ~ In ";"%char (lit " from 'react'") /\
  add_stylesheet_import two_imports_source
  = lit "// app
" ++ lit "import React" ++ lit " from 'react'" ++ lit ";" ++ [newline]
    ++ stylesheet_import
    ++ sub react_import_pattern
         [Group1; Plain [newline]; Plain stylesheet_import]
         (lit "
import ReactDOM from 'react-dom';
const x = 1;") /\
  add_stylesheet_import (add_stylesheet_import two_imports_source)
  = add_stylesheet_import two_imports_source /\
  add_stylesheet_import two_imports_source = lit
"// app
import React from 'react';
import { StyleSheet } from 'react-native';
import ReactDOM from 'react-dom';
import { StyleSheet } from 'react-native';
const x = 1;".
Proof.
  assert (H1 : contains (lit "StyleSheet") two_imports_source = false)
    by (vm_compute; reflexivity).
  assert (H2 : contains (lit "from 'react-native';") two_imports_source = false)
    by (vm_compute; reflexivity).
  assert (H3 : ~ In ";"%char (lit " from 'react'")).
  { vm_compute. intuition discriminate. }
  split; [exact H1|]. split; [exact H2|]. split; [exact H3|].
  destruct (add_import_after_first_react
              (lit "// app
") (lit " from 'react'") (lit "
import ReactDOM from 'react-dom';
const x = 1;") H1 H2 H3) as [E1 [_ E3]].
  { intros k Hk. do 7 (destruct k as [|k]; [vm_compute; reflexivity|]).
    vm_compute in Hk. lia. }
  split; [exact E1|]. split; [exact E3|]. vm_compute. reflexivity.
Defined.

(** X5: [main] prints its summary only at the end of a run in which
    every target that exists could be read.  The reads have no handler,
    so an unreadable target anywhere in the list keeps the run from its
    end and from its summary. *)
Theorem main_summary_only_if_readable
    (files : list string) (d : gmap string disk_file)
    (r : outcome unit) (w' : world) (n : nat) :
  main_on files (World d []) = (r, w') ->
  In (FixSummary n) (console w') ->
  r = Ret tt /\ all_readable d files.
Proof.
  rewrite main_on_run. cbn [disk console app]. intros H Hn.
  destruct (fix_loop files 0 (World d [FixBanner])) as [[n1|e] w1] eqn:E.
  - injection H as <- _. split; [reflexivity|].
    exact (fix_loop_returns_readable _ _ _ _ _ E).
  - injection H as _ <-. exfalso.
    destruct (fix_loop_lines _ _ _ _ _ E) as [out [Ec [Hpath _]]].
    cbn [console] in Ec. rewrite Ec in Hn.
    destruct Hn as [Hn|Hn]; [discriminate Hn|].
    destruct (Hpath _ Hn) as [q [_ Hq]]. discriminate Hq.
Qed.

Lemma main_summary_only_if_readable_witness :
  main_on files_to_fix (World target_disk [])
    = (Ret tt, snd (main (World target_disk []))) /\
  In (FixSummary 1) (console (snd (main (World target_disk [])))) /\
  Ret tt = Ret tt /\ all_readable target_disk files_to_fix.
Proof.
  assert (H : main_on files_to_fix (World target_disk [])
              = (Ret tt, snd (main (World target_disk [])))).
  { vm_compute. reflexivity. }
  assert (Hn : In (FixSummary 1) (console (snd (main (World target_disk []))))).
  { vm_compute. repeat (first [left; reflexivity | right]). }
  split; [exact H|]. split; [exact Hn|].
  exact (main_summary_only_if_readable _ _ _ _ _ H Hn).
Defined.

(** X6: at the first target that exists and cannot be read, [main]
    raises that target's error.  The targets before it have been
    handled, every other file is as it was, the targets after it are
    never visited, and no summary is printed. *)
Theorem main_stops_at_unreadable
    (pre post : list string) (p e : string) (d : gmap string disk_file) :
  all_readable d pre ->
  d !! p = Some (Unreadable e) ->
  exists w',
    main_on (pre ++ p :: post) (World d []) = (Raise e, w') /\
    (forall n, ~ In (FixSummary n) (console w')) /\
    (forall m, In m (console w') ->
       m = FixBanner \/ exists q, In q pre /\ line_path m = Some q) /\
    (forall q, In q pre -> disk w' !! q = fixed <$> d !! q) /\
    (forall q, ~ In q pre -> disk w' !! q = d !! q).
Proof.
  intros Hr Hp. rewrite main_on_run. cbn [disk console app].
  rewrite fix_loop_app.
  destruct (fix_loop_total pre 0 (World d [FixBanner]) Hr)
    as [w1 [E [Hin [Hout _]]]].
  rewrite E. cbn [disk] in Hin, Hout.
  assert (Hnot : ~ In p pre).
  { intros H. exact (Hr p e H Hp). }
  rewrite (fix_loop_visit_raise p post _ w1 e) by (rewrite (Hout p Hnot); exact Hp).
  destruct (fix_loop_lines _ _ _ _ _ E) as [out [Ec [Hpath _]]].
  cbn [console] in Ec.
  assert (Hlines : forall m, In m (console w1) ->
            m = FixBanner \/ exists q, In q pre /\ line_path m = Some q).
  { intros m Hm. rewrite Ec in Hm. destruct Hm as [<-|Hm]; [left; reflexivity|].
    right. exact (Hpath m Hm). }
  exists w1. split; [reflexivity|]. split; [|split; [exact Hlines|split; assumption]].
  intros n Hn. destruct (Hlines _ Hn) as [H|[q [_ H]]]; discriminate H.
Qed.

Lemma main_stops_at_unreadable_witness :
  all_readable blocked_disk
    [ "src/tandapay/wallet/wallet-setup/components/VerificationRow.js";
      "src/tandapay/wallet/wallet-setup/components/WordChip.js" ] /\
  blocked_disk !! "src/tandapay/wallet/WalletSendScreen.js"
    = Some (Unreadable "PermissionError") /\
  main (World blocked_disk [])
  = (Raise "PermissionError",
     World (<["src/tandapay/wallet/wallet-setup/components/WordChip.js"
                := Text scenario_fixed]> blocked_disk)
       [FixBanner;
        NotFound "src/tandapay/wallet/wallet-setup/components/VerificationRow.js";
        Modified "src/tandapay/wallet/wallet-setup/components/WordChip.js"
          [lit "styles"]]) /\
  exists w',
    main_on
      ([ "src/tandapay/wallet/wallet-setup/components/VerificationRow.js";
         "src/tandapay/wallet/wallet-setup/components/WordChip.js" ]
       ++ "src/tandapay/wallet/WalletSendScreen.js"
          :: [ "src/tandapay/wallet/TransactionDetailsModal.js" ])
      (World blocked_disk [])
    = (Raise "PermissionError", w') /\
    (forall n, ~ In (FixSummary n) (console w')) /\
    (forall m, In m (console w') ->
       m = FixBanner \/
       exists q,
         In q [ "src/tandapay/wallet/wallet-setup/components/VerificationRow.js";
                "src/tandapay/wallet/wallet-setup/components/WordChip.js" ] /\
         line_path m = Some q) /\
    (forall q,
       In q [ "src/tandapay/wallet/wallet-setup/components/VerificationRow.js";
              "src/tandapay/wallet/wallet-setup/components/WordChip.js" ] ->
       disk w' !! q = fixed <$> blocked_disk !! q) /\
    (forall q,
       ~ In q [ "src/tandapay/wallet/wallet-setup/components/VerificationRow.js";
                "src/tandapay/wallet/wallet-setup/components/WordChip.js" ] ->
       disk w' !! q = blocked_disk !! q).
Proof.
  assert (H : all_readable blocked_disk
            [ "src/tandapay/wallet/wallet-setup/components/VerificationRow.js";
              "src/tandapay/wallet/wallet-setup/components/WordChip.js" ]).
  { intros q e [<-|[<-|[]]]; vm_compute; discriminate. }
  split; [exact H|]. split; [vm_compute; reflexivity|].
  split; [vm_compute; reflexivity|].
  apply (main_stops_at_unreadable _ _ _ _ _ H). vm_compute. reflexivity.
Defined.

(** X7: whatever the run, [main] creates and removes no file, leaves
    every path outside its list, every unreadable file and every file
    that holds the wrapping call as they were, and leaves any file
    either as it was or as the fixer leaves such a file. *)
Theorem main_frame (files : list string) (d : gmap string disk_file) :
  dom (disk (snd (main_on files (World d [])))) = dom d /\
  (forall q, ~ In q files ->
     disk (snd (main_on files (World d []))) !! q = d !! q) /\
  (forall q e, d !! q = Some (Unreadable e) ->
     disk (snd (main_on files (World d []))) !! q = Some (Unreadable e)) /\
  (forall q c, d !! q = Some (Text c) -> contains wrap_call c = true ->
     disk (snd (main_on files (World d []))) !! q = Some (Text c)) /\
  (forall q, disk (snd (main_on files (World d []))) !! q = d !! q \/
             disk (snd (main_on files (World d []))) !! q = fixed <$> d !! q).
Proof.
  rewrite main_on_run. cbn [disk console app].
  destruct (fix_loop files 0 (World d [FixBanner])) as [r w1] eqn:E.
  pose proof (fix_loop_frame _ _ _ _ _ E) as Hf. cbn [disk] in Hf.
  assert (Hd : disk (snd (match r with
                          | Ret n => (Ret tt, World (disk w1) (console w1 ++ [FixSummary n]))
                          | Raise e => (Raise e, w1)
                          end)) = disk w1).
  { destruct r; reflexivity. }
  rewrite Hd. clear Hd. split; [|split; [|split; [|split]]].
  - apply set_eq. intros q. rewrite !elem_of_dom.
    destruct (Hf q) as [->|[_ ->]]; [reflexivity|].
    rewrite fmap_is_Some. reflexivity.
  - intros q Hq. destruct (Hf q) as [H|[H _]]; [exact H|contradiction].
  - intros q e Hq. destruct (Hf q) as [->|[_ ->]]; rewrite Hq; reflexivity.
  - intros q c Hq Hc. destruct (Hf q) as [->|[_ ->]]; rewrite Hq; [reflexivity|].
    cbn [fmap option_fmap option_map fixed]. rewrite Hc. reflexivity.
  - intros q. destruct (Hf q) as [H|[_ H]]; auto.
Qed.

(** X8: in one run, [main] reports no file as modified twice, and when
    it runs to its end the count of the summary, its last line, is the
    number of lines that report a modification. *)
Theorem main_modified_once
    (files : list string) (d : gmap string disk_file) (p : string) :
  length (List.filter (modified_line p)
            (console (snd (main_on files (World d []))))) <= 1 /\
  (fst (main_on files (World d [])) = Ret tt ->
   last (console (snd (main_on files (World d []))))
   = Some (FixSummary
             (length (List.filter any_modified_line
                        (console (snd (main_on files (World d [])))))))).
Proof.
  rewrite main_on_run. cbn [disk console app].
  destruct (fix_loop files 0 (World d [FixBanner])) as [r w1] eqn:E.
  destruct (fix_loop_lines _ _ _ _ _ E) as [out [Ec [_ [Hmod Hcount]]]].
  cbn [console disk] in *. destruct (Hmod p) as [Hle _].
  destruct r as [n|e]; cbn [fst snd console].
  - rewrite Ec, !List.filter_app.
    cbn [List.filter modified_line any_modified_line].
    rewrite !length_app. cbn [length]. split; [lia|]. intros _.
    rewrite last_snoc, (Hcount n eq_refl). do 2 f_equal. lia.
  - rewrite Ec, List.filter_app. cbn [List.filter modified_line app].
    split; [exact Hle|discriminate].
Qed.

(** X9: the scanner visits exactly the paths [find] printed, in the
    order printed: from an output with each path on a line of its own,
    every path under the scanned directory with the extension asked for,
    the enumeration is the list of those paths, and the records and
    lines of the scan are those of these paths one after the other.  An
    output of white space alone gives no path, no record and no line. *)
Theorem scanner_visits_found_paths
    (ps : list string) (d : gmap string disk_file) :
  Forall found_path ps ->
  js_files_of (find_prints ps) = ps /\
  find_unwrapped_styles (find_prints ps) (World d [])
  = (Ret (flat_map (fun p => scan_records p (d !! p)) ps),
     World d (flat_map (fun p => scan_lines p (d !! p)) ps)) /\
  (forall blank, forallb is_space blank = true ->
     js_files_of blank = [] /\
     find_unwrapped_styles blank (World d []) = (Ret [], World d [])).
Proof.
  intros H. pose proof (js_files_of_find_prints ps H) as E.
  split; [exact E|]. split.
  - rewrite find_unwrapped_styles_run, E. reflexivity.
  - intros blank Hb.
    assert (E0 : js_files_of blank = []).
    { unfold js_files_of. rewrite (strip_blank _ Hb). reflexivity. }
    split; [exact E0|]. rewrite find_unwrapped_styles_run, E0. reflexivity.
Qed.

Lemma scanner_visits_found_paths_witness :
  Forall found_path
    ["src/tandapay/A.js"; "src/tandapay/B.js"; "src/tandapay/C.js"] /\
  find_prints ["src/tandapay/A.js"; "src/tandapay/B.js"; "src/tandapay/C.js"]
    = find_output /\
  js_files_of
    (find_prints ["src/tandapay/A.js"; "src/tandapay/B.js"; "src/tandapay/C.js"])
  = ["src/tandapay/A.js"; "src/tandapay/B.js"; "src/tandapay/C.js"] /\
  find_unwrapped_styles
    (find_prints ["src/tandapay/A.js"; "src/tandapay/B.js"; "src/tandapay/C.js"])
    (World project_disk [])
  = (Ret (flat_map (fun p => scan_records p (project_disk !! p))
            ["src/tandapay/A.js"; "src/tandapay/B.js"; "src/tandapay/C.js"]),
     World project_disk
       (flat_map (fun p => scan_lines p (project_disk !! p))
          ["src/tandapay/A.js"; "src/tandapay/B.js"; "src/tandapay/C.js"])) /\
  (forall blank, forallb is_space blank = true ->
     js_files_of blank = [] /\
     find_unwrapped_styles blank (World project_disk [])
     = (Ret [], World project_disk [])).
Proof.
  assert (H : Forall found_path
            ["src/tandapay/A.js"; "src/tandapay/B.js"; "src/tandapay/C.js"]).
  { repeat constructor.
    - exists (lit "/A"). split; [reflexivity|]. vm_compute. intuition discriminate.
    - exists (lit "/B"). split; [reflexivity|]. vm_compute. intuition discriminate.
    - exists (lit "/C"). split; [reflexivity|]. vm_compute. intuition discriminate. }
  split; [exact H|]. split; [vm_compute; reflexivity|].
  exact (scanner_visits_found_paths _ project_disk H).
Defined.

(** X10: the script of the scanner always ends normally and leaves the
    disk as it was.  It prints its banner, the lines of the scan, and a
    summary whose count is the number of enumerated files that can be
    read, declare a style and lack the wrapping call.  The list of files
    to fix is printed only when that count is not zero, and names exactly
    those files, in the order of the enumeration. *)
Theorem scanner_main_summary (stdout : text) (d : gmap string disk_file) :
  scanner_main stdout d
  = (Ret tt, d,
     [SearchBanner]
     ++ map Scanned
          (flat_map (fun p => scan_lines p (d !! p)) (js_files_of stdout))
     ++ [SummaryHeader;
         FoundCount (length (List.filter (needs_fixing d) (js_files_of stdout)))]
     ++ match List.filter (needs_fixing d) (js_files_of stdout) with
        | [] => []
        | _ :: _ =>
            NeedFixingHeader
            :: map NeedsFixing (List.filter (needs_fixing d) (js_files_of stdout))
        end).
Proof.
  unfold scanner_main. rewrite find_unwrapped_styles_run. cbn [disk console].
  rewrite <- (scan_records_files d (js_files_of stdout)).
  rewrite length_map, map_map.
  destruct (flat_map _ (js_files_of stdout)) as [|r rs] eqn:E.
  - reflexivity.
  - cbn [map]. rewrite <- !app_assoc. reflexivity.
Qed.

(** X11: where the import step has nothing to hold on to, the fixer and
    the scanner agree.  For a readable file that already holds the
    symbol, or has neither an import from the target module nor a
    framework import, the import step adds nothing: the fixer writes the
    wrapped form of the content as it stands, reporting the names the
    scanner reports, exactly when the scanner counts the file as one to
    fix, and changes nothing otherwise. *)
Theorem fixer_without_import_anchor (p : string) (w : world) (c : text) :
  disk w !! p = Some (Text c) ->
  contains (lit "StyleSheet") c = true \/
  (contains (lit "from 'react-native';") c = false /\
   contains (lit "import React") c = false) ->
  add_stylesheet_import c = c /\
  wrap_styles_with_stylesheet p w =
  if needs_fixing (disk w) p
  then (Ret true,
        World (<[p := Text (wrap_content c)]> (disk w))
              (console w ++ [Modified p (findall style_pattern c)]))
  else (Ret false,
        World (disk w)
              (console w ++ if contains wrap_call c then [AlreadyUses p] else [])).
Proof.
  intros Hc Hno.
  assert (Hadd : add_stylesheet_import c = c).
  { destruct Hno as [Hs|[Hrn Hreact]]; [apply add_import_symbol_present, Hs|].
    destruct (contains (lit "StyleSheet") c) eqn:Hs;
      [apply add_import_symbol_present, Hs|].
    apply add_import_no_anchor; [exact Hs| |].
    - unfold rn_import_pattern, chars. rewrite search_literal. exact Hrn.
    - destruct (search react_import_pattern c) eqn:E; [|reflexivity].
      apply search_react_import in E. congruence. }
  split; [exact Hadd|].
  rewrite wrap_styles_run, Hc, Hadd. unfold needs_fixing. rewrite Hc.
  destruct (contains wrap_call c).
  - destruct (findall style_pattern c); reflexivity.
  - destruct (findall style_pattern c); [|reflexivity].
    cbn [negb]. rewrite app_nil_r. destruct w; reflexivity.
Qed.

Lemma fixer_without_import_anchor_witness :
  disk (World {["A.js" := Text plain_source]} []) !! "A.js"
    = Some (Text plain_source) /\
  (contains (lit "StyleSheet") plain_source = true \/
   (contains (lit "from 'react-native';") plain_source = false /\
    contains (lit "import React") plain_source = false)) /\
  add_stylesheet_import plain_source = plain_source /\
  wrap_styles_with_stylesheet "A.js" (World {["A.js" := Text plain_source]} []) =
  (if needs_fixing (disk (World {["A.js" := Text plain_source]} [])) "A.js"
   then (Ret true,
         World (<["A.js" := Text (wrap_content plain_source)]>
                  (disk (World {["A.js" := Text plain_source]} [])))
               (console (World {["A.js" := Text plain_source]} [])
                ++ [Modified "A.js" (findall style_pattern plain_source)]))
   else (Ret false,
         World (disk (World {["A.js" := Text plain_source]} []))
               (console (World {["A.js" := Text plain_source]} [])
                ++ if contains wrap_call plain_source
                   then [AlreadyUses "A.js"] else []))) /\
  wrap_styles_with_stylesheet "A.js" (World {["A.js" := Text plain_source]} [])
  = (Ret true,
     World {["A.js" := Text plain_fixed]} [Modified "A.js" [lit "rowStyle"]]).
Proof.
  assert (H1 : disk (World {["A.js" := Text plain_source]} []) !! "A.js"
               = Some (Text plain_source)) by (vm_compute; reflexivity).
  assert (H2 : contains (lit "StyleSheet") plain_source = true \/
               (contains (lit "from 'react-native';") plain_source = false /\
                contains (lit "import React") plain_source = false)).
  { right. split; vm_compute; reflexivity. }
  split; [exact H1|]. split; [exact H2|].
  destruct (fixer_without_import_anchor "A.js" _ plain_source H1 H2) as [E1 E2].
  split; [exact E1|]. split; [exact E2|]. vm_compute. reflexivity.
Defined.
